(** * gijiroku-kun: dual-channel capture, recognition session and
      transcript filter

    A shallow embedding of three source modules and of what surrounds
    them:

    - [src/lib/ai-service.ts]  ([transcribeWithGroq], [WHISPER_HALLUCINATIONS],
      [testGroqConnection]),
    - [src/lib/speech-recognition.ts]  ([SpeechRecognitionEngine], and the
      state updates of [useEvalTemplates] in the same file),
    - the audio capture module  ([AudioCaptureEngine]),
    - the way of a chunk into the conversation log  ([handleAudioChunk] of
      the recording panel, [addLog] of the store).

    JavaScript strings are sequences of UTF-16 code units; methods that
    mutate [this] and may throw are computations in a state-and-exception
    monad whose state survives a throw, as a JavaScript object does. *)

From Stdlib Require Import String Ascii DecimalN.
From stdpp Require Import base tactics option list numbers.

Open Scope string_scope.
Open Scope N_scope.
Open Scope list_scope.

(** ** Exceptions and effects *)

(** The exception values the modelled code can observe.  The code never
    inspects them beyond logging, so the name is enough. *)
Inductive exn :=
  | TypeError
  | ReferenceError
  | InvalidStateError
  | NotSupportedError
  | NotAllowedError
  | SyntaxError
  | NetworkError.

(** What a call into the platform (or an awaited promise) gives back. *)
Inductive attempt (A : Type) :=
  | Resolves (a : A)
  | Rejects (e : exn).
Arguments Resolves {A} a.
Arguments Rejects {A} e.

(** The outcome of running a method on a state [S]: a normal return or a
    throw, each with the state as the method left it. *)
Inductive result (S A : Type) :=
  | Ret (a : A) (s : S)
  | Raise (e : exn) (s : S).
Arguments Ret {S A} a s.
Arguments Raise {S A} e s.

Definition Eff (S A : Type) : Type := S → result S A.

Definition eff_ret {S A} (a : A) : Eff S A := λ s, Ret a s.

Definition eff_bind {S A B} (f : A → Eff S B) (m : Eff S A) : Eff S B :=
  λ s, match m s with
       | Ret a s' => f a s'
       | Raise e s' => Raise e s'
       end.

#[global] Instance Eff_ret {S} : MRet (Eff S) := @eff_ret S.
#[global] Instance Eff_bind {S} : MBind (Eff S) := @eff_bind S.

(** [throw e] *)
Definition throw {S A} (e : exn) : Eff S A := λ s, Raise e s.

(** [try { m } catch (e) { h e }] *)
Definition try_catch {S A} (m : Eff S A) (h : exn → Eff S A) : Eff S A :=
  λ s, match m s with
       | Ret a s' => Ret a s'
       | Raise e s' => h e s'
       end.

(** [await p], and a synchronous call that may throw. *)
Definition await {S A} (p : attempt A) : Eff S A :=
  match p with
  | Resolves a => mret a
  | Rejects e => throw e
  end.

Definition get {S} : Eff S S := λ s, Ret s s.
Definition gets {S A} (f : S → A) : Eff S A := λ s, Ret (f s) s.
Definition modify {S} (f : S → S) : Eff S unit := λ s, Ret tt (f s).

(** [if (c) { m }] *)
Definition when {S} (c : bool) (m : Eff S unit) : Eff S unit :=
  if c then m else mret tt.

(** The state a computation ends in, however it ends. *)
Definition final_state {S A} (r : result S A) : S :=
  match r with Ret _ s => s | Raise _ s => s end.

Definition returned {S A} (r : result S A) : option A :=
  match r with Ret a _ => Some a | Raise _ _ => None end.

(** ** JavaScript strings *)

Module JsString.

(** A string value: its UTF-16 code units. *)
Definition jsstring := list N.

(** Reading a literal of this file (UTF-8 bytes) as a JavaScript string. *)
Fixpoint utf16_of_utf8 (bs : list N) : jsstring :=
  match bs with
  | [] => []
  | b0 :: r0 =>
    if b0 <? 0x80 then b0 :: utf16_of_utf8 r0
    else if b0 <? 0xE0 then
      match r0 with
      | b1 :: r1 =>
        N.lor (N.shiftl (N.land b0 0x1F) 6) (N.land b1 0x3F) :: utf16_of_utf8 r1
      | _ => []
      end
    else if b0 <? 0xF0 then
      match r0 with
      | b1 :: b2 :: r2 =>
        N.lor (N.shiftl (N.land b0 0x0F) 12)
              (N.lor (N.shiftl (N.land b1 0x3F) 6) (N.land b2 0x3F))
          :: utf16_of_utf8 r2
      | _ => []
      end
    else
      match r0 with
      | b1 :: b2 :: b3 :: r3 =>
        let cp := N.lor (N.shiftl (N.land b0 0x07) 18)
                 (N.lor (N.shiftl (N.land b1 0x3F) 12)
                 (N.lor (N.shiftl (N.land b2 0x3F) 6) (N.land b3 0x3F))) in
        let c := cp - 0x10000 in
        (0xD800 + N.shiftr c 10) :: (0xDC00 + N.land c 0x3FF) :: utf16_of_utf8 r3
      | _ => []
      end
  end.

Definition js (s : string) : jsstring :=
  utf16_of_utf8 (map N_of_ascii (list_ascii_of_string s)).

(** ECMAScript [WhiteSpace] and [LineTerminator] code points, the ones
    [String.prototype.trim] strips. *)
Definition isWhiteSpace (c : N) : bool :=
  (c =? 0x0009) || (c =? 0x000A) || (c =? 0x000B) || (c =? 0x000C)
  || (c =? 0x000D) || (c =? 0x0020) || (c =? 0x00A0) || (c =? 0x1680)
  || ((0x2000 <=? c) && (c <=? 0x200A))
  || (c =? 0x2028) || (c =? 0x2029) || (c =? 0x202F) || (c =? 0x205F)
  || (c =? 0x3000) || (c =? 0xFEFF).

Fixpoint trimStart (s : jsstring) : jsstring :=
  match s with
  | c :: s' => if isWhiteSpace c then trimStart s' else s
  | [] => []
  end.

Definition trimEnd (s : jsstring) : jsstring := rev (trimStart (rev s)).

(** [s.trim()] *)
Definition trim (s : jsstring) : jsstring := trimEnd (trimStart s).

(** [t.startsWith(h)] *)
Fixpoint startsWith (t h : jsstring) {struct h} : bool :=
  match h, t with
  | [], _ => true
  | x :: h', y :: t' => (x =? y) && startsWith t' h'
  | _ :: _, [] => false
  end.

(** [t.includes(h)]: [h] occurs in [t] at some position. *)
Fixpoint includes (t h : jsstring) : bool :=
  startsWith t h ||
  match t with
  | [] => false
  | _ :: t' => includes t' h
  end.

(** A string is truthy when it is not empty. *)
Definition truthy (s : jsstring) : bool :=
  match s with [] => false | _ => true end.

End JsString.
Import JsString.

(** Encoded audio: a [Blob] is its bytes and its MIME type. *)
Record Blob := { blob_bytes : list N; blob_type : string }.

Definition blob_size (b : Blob) : nat := length (blob_bytes b).

(** [new Blob(parts, { type })] concatenates the parts. *)
Definition new_Blob (parts : list Blob) (type : string) : Blob :=
  {| blob_bytes := concat (map blob_bytes parts); blob_type := type |}.

(** ** Batch transcription ([src/lib/ai-service.ts]) *)

Module Groq.

(** A value produced by [JSON.parse]. *)
#[warnings="-register-all"]
Inductive jsvalue :=
  | JNull
  | JBool (b : bool)
  | JNumber (n : Z)
  | JString (s : jsstring)
  | JArray (items : list jsvalue)
  | JObject (fields : list (string * jsvalue)).

(** The member of an object by name: the last one of that name, as
    [JSON.parse] keeps it, or [undefined]. *)
Fixpoint lookup_field (k : string) (fs : list (string * jsvalue))
  : option jsvalue :=
  match fs with
  | [] => None
  | (k', v) :: fs' =>
    match lookup_field k fs' with
    | Some v' => Some v'
    | None => if String.eqb k k' then Some v else None
    end
  end.

(** [v.k] on a parsed value: reading a property of [null] throws, an
    object gives its member, and no other parsed value has a [text]
    property. *)
Definition get_property (v : jsvalue) (k : string)
  : attempt (option jsvalue) :=
  match v with
  | JNull => Rejects TypeError
  | JObject fs => Resolves (lookup_field k fs)
  | _ => Resolves None
  end.

(** [x?.trim()]: [undefined] for a nullish [x], the trimmed string for a
    string, and a [TypeError] for any other parsed value, which has no
    [trim] method. *)
Definition optional_trim (x : option jsvalue) : attempt (option jsstring) :=
  match x with
  | None | Some JNull => Resolves None
  | Some (JString s) => Resolves (Some (trim s))
  | Some _ => Rejects TypeError
  end.

(** The [fetch] response, as far as the function reads it. *)
Record Response := {
  ok : bool;
  status : N;
  text : attempt jsstring;      (* await response.text() *)
  json : attempt jsvalue;       (* await response.json() *)
}.

Inductive formValue :=
  | FormFile (b : Blob) (filename : string)
  | FormString (s : string).

Record Request := {
  url : string;
  method : string;
  authorization : jsstring;
  body : list (string * formValue);
}.

Inductive consoleEntry :=
  | ConsoleWarn (msg : string)
  | ConsoleError (msg : string) (detail : list jsstring)
  | ConsoleLog (msg : string) (detail : list jsstring).

Definition console := list consoleEntry.

Definition console_write (e : consoleEntry) : Eff console unit :=
  modify (λ c, c ++ [e]).

Definition WHISPER_HALLUCINATIONS : list jsstring :=
  [ js "ご視聴ありがとうございました";
    js "チャンネル登録";
    js "高評価";
    js "Thanks for watching";
    js "Please subscribe";
    js "字幕";
    js "おやすみなさい";
    js "視聴ありがとうございました";
    js "最後までご視聴" ].

(** Lines 437-446: an absent or empty text is dropped, a text that
    includes a denylist entry is dropped, any other text is returned. *)
Definition dropHallucination (text : option jsstring)
  : Eff console (option jsstring) :=
  match text with
  | None => mret None
  | Some t =>
    if negb (truthy t) then mret None
    else if existsb (λ h, includes t h) WHISPER_HALLUCINATIONS then
      console_write (ConsoleLog "Whisperハルシネーションを検知・除外:" [t]);;
      mret None
    else mret (Some t)
  end.

(** The request [transcribeWithGroq] sends. *)
Definition transcription_request (audioBlob : Blob) (groqApiKey : jsstring)
  : Request :=
  let formData :=
    [ ("file", FormFile audioBlob "audio.webm");
      ("model", FormString "whisper-large-v3");
      ("language", FormString "ja");
      ("response_format", FormString "json") ] in
  {| url := "https://api.groq.com/openai/v1/audio/transcriptions";
     method := "POST";
     authorization := js "Bearer " ++ groqApiKey;
     body := formData |}.

Section Transcribe.

(** The network: what [fetch] does with a request, and whether the
    [FormData] constructor exists. *)
Variable fetch : Request → attempt Response.
Variable newFormData : attempt unit.

Definition transcribeWithGroq (audioBlob : Blob) (groqApiKey : jsstring)
  : Eff console (option jsstring) :=
  if negb (truthy groqApiKey) then
    console_write
      (ConsoleWarn "Groq APIキーが未設定です（相手の声の認識はスキップ）");;
    mret None
  else
    try_catch
      (await newFormData;;
       response ← await (fetch (transcription_request audioBlob groqApiKey));
       if negb (ok response) then
         errorText ← await (text response);
         console_write (ConsoleError "Groq API エラー:" [errorText]);;
         mret None
       else
         data ← await (json response);
         member ← await (get_property data "text");
         text ← await (optional_trim member);
         dropHallucination text)
      (λ error,
         console_write (ConsoleError "Groq API呼び出しエラー:" []);;
         mret None).

End Transcribe.

End Groq.

(** ** The reconnecting recognition session ([src/lib/speech-recognition.ts]) *)

Module Recognition.

Record SpeechRecognitionAlternative := { transcript : jsstring }.

(** A result carries at least one alternative; the code reads only the
    first, [result[0]]. *)
Record SpeechRecognitionResult := {
  isFinal : bool;
  first : SpeechRecognitionAlternative;
  others : list SpeechRecognitionAlternative;
}.

Record SpeechRecognitionEvent := {
  resultIndex : nat;
  results : list SpeechRecognitionResult;
}.

(** A call of one of the client's callbacks. *)
Inductive callback :=
  | onFinalResult (text : jsstring)
  | onInterimResult (text : jsstring)
  | onStart
  | onEnd
  | onError (error : string).

(** [onStart], [onEnd] and [onError] are optional members. *)
Record SpeechRecognitionCallbacks := {
  hasOnStart : bool;
  hasOnEnd : bool;
  hasOnError : bool;
}.

(** Who called the primitive's [start()]: the [start] method, the [onend]
    handler, or the timer set by the [onerror] handler. *)
Inductive origin := ByStart | ByEnded | ByErrorTimer.

(** What the engine does to the world around it. *)
Inductive effect :=
  | Constructed (id : nat)                 (* new SpeechRecognition(), configured, handlers set *)
  | PrimitiveStart (by_ : origin) (id : nat)  (* recognition.start() *)
  | PrimitiveStop (id : nat)               (* recognition.stop() *)
  | TimeoutSet (ms : nat)                  (* setTimeout(..., ms) *)
  | Called (c : callback).

(** A restart attempt is a [start()] of the primitive that the [start]
    method did not make. *)
Definition is_restart (x : effect) : bool :=
  match x with
  | PrimitiveStart ByEnded _ | PrimitiveStart ByErrorTimer _ => true
  | _ => false
  end.

Definition is_timeout (x : effect) : bool :=
  match x with TimeoutSet _ => true | _ => false end.

(** The engine's fields, and around them the instances constructed so
    far, the restart timers that have not fired yet and the effects so
    far, oldest first. *)
Record engine := {
  recognition : option nat;
  isRunning : bool;
  shouldRestart : bool;
  constructed : nat;
  pending : list nat;
  log : list effect;
}.

Definition set_recognition v e :=
  {| recognition := v; isRunning := isRunning e;
     shouldRestart := shouldRestart e; constructed := constructed e;
     pending := pending e; log := log e |}.
Definition set_isRunning v e :=
  {| recognition := recognition e; isRunning := v;
     shouldRestart := shouldRestart e; constructed := constructed e;
     pending := pending e; log := log e |}.
Definition set_shouldRestart v e :=
  {| recognition := recognition e; isRunning := isRunning e;
     shouldRestart := v; constructed := constructed e;
     pending := pending e; log := log e |}.
Definition set_constructed v e :=
  {| recognition := recognition e; isRunning := isRunning e;
     shouldRestart := shouldRestart e; constructed := v;
     pending := pending e; log := log e |}.
Definition set_pending v e :=
  {| recognition := recognition e; isRunning := isRunning e;
     shouldRestart := shouldRestart e; constructed := constructed e;
     pending := v; log := log e |}.
Definition set_log v e :=
  {| recognition := recognition e; isRunning := isRunning e;
     shouldRestart := shouldRestart e; constructed := constructed e;
     pending := pending e; log := v |}.

(** [new SpeechRecognitionEngine(callbacks)] *)
Definition new_engine : engine :=
  {| recognition := None; isRunning := false; shouldRestart := false;
     constructed := 0%nat; pending := []; log := [] |}.

Definition emit (x : effect) : Eff engine unit :=
  modify (λ e, set_log (log e ++ [x]) e).

(** The browser: [window] and its two constructors. *)
Record browser := {
  hasWindow : bool;
  hasWebkitSpeechRecognition : bool;
  hasSpeechRecognition : bool;
}.

Section Engine.

Variable window : browser.
Variable callbacks : SpeechRecognitionCallbacks.

Definition isSupported : bool :=
  if negb (hasWindow window) then false
  else hasWebkitSpeechRecognition window || hasSpeechRecognition window.

(** [this.recognition?.start()], which the primitive may refuse by
    throwing ([throws]). *)
Definition recognition_start (by_ : origin) (throws : bool)
  : Eff engine unit :=
  r ← gets recognition;
  match r with
  | None => mret tt
  | Some id =>
    emit (PrimitiveStart by_ id);;
    if throws then throw InvalidStateError else mret tt
  end.

Definition recognition_stop (throws : bool) : Eff engine unit :=
  r ← gets recognition;
  match r with
  | None => mret tt
  | Some id =>
    emit (PrimitiveStop id);;
    if throws then throw InvalidStateError else mret tt
  end.

(** The four handlers [start] sets on every instance.  They read and
    write [this] only, so the handlers of all instances are the same
    functions. *)
Definition onstart_handler : Eff engine unit :=
  modify (set_isRunning true);;
  when (hasOnStart callbacks) (emit (Called onStart)).

Definition onend_handler (throws : bool) : Eff engine unit :=
  modify (set_isRunning false);;
  restart ← gets shouldRestart;
  if restart : bool then
    try_catch (recognition_start ByEnded throws) (λ _, mret tt)
  else when (hasOnEnd callbacks) (emit (Called onEnd)).

Definition onerror_handler : Eff engine unit :=
  restart ← gets shouldRestart;
  when (restart : bool)
    (emit (TimeoutSet 1000);;
     modify (λ e, set_pending (pending e ++ [1000%nat]) e)).

(** The function given to [setTimeout] by the [onerror] handler. *)
Definition restart_timer (throws : bool) : Eff engine unit :=
  try_catch (recognition_start ByErrorTimer throws) (λ _, mret tt).

(** The loop of the [onresult] handler over [event.results]. *)
Fixpoint collect (rs : list SpeechRecognitionResult)
    (finalText interimText : jsstring) : jsstring * jsstring :=
  match rs with
  | [] => (finalText, interimText)
  | result :: rs' =>
    if isFinal result
    then collect rs' (finalText ++ transcript (first result)) interimText
    else collect rs' finalText (interimText ++ transcript (first result))
  end.

Definition onresult_handler (event : SpeechRecognitionEvent)
  : Eff engine unit :=
  let '(finalText, interimText) :=
    collect (drop (resultIndex event) (results event)) [] [] in
  when (truthy interimText) (emit (Called (onInterimResult interimText)));;
  when (truthy finalText)
    (emit (Called (onFinalResult finalText));;
     emit (Called (onInterimResult []))).

Definition start (throws : bool) : Eff engine bool :=
  if negb isSupported then
    when (hasOnError callbacks)
      (emit (Called (onError
         "Web Speech API がサポートされていません（Chromeをご利用ください）")));;
    mret false
  else
    running ← gets isRunning;
    if running : bool then mret true
    else
      id ← gets constructed;
      modify (set_constructed (S id));;
      modify (set_recognition (Some id));;
      emit (Constructed id);;
      modify (set_shouldRestart true);;
      try_catch
        (recognition_start ByStart throws;; mret true)
        (λ _,
           when (hasOnError callbacks)
             (emit (Called (onError "音声認識の開始に失敗しました")));;
           mret false).

Definition stop (throws : bool) : Eff engine unit :=
  modify (set_shouldRestart false);;
  r ← gets recognition;
  when (bool_decide (is_Some r))
    (try_catch (recognition_stop throws) (λ _, mret tt));;
  modify (set_isRunning false).

Definition getIsRunning (e : engine) : bool :=
  isRunning e || shouldRestart e.

(** What can happen to an engine: the client calls a method, the
    primitive signals, or a restart timer fires.  The booleans say
    whether the primitive's [start()] or [stop()] throws on that
    occasion. *)
Inductive event :=
  | CallStart (throws : bool)
  | CallStop (throws : bool)
  | SignalStarted
  | SignalEnded (throws : bool)
  | SignalError
  | SignalResult (ev : SpeechRecognitionEvent)
  | TimerFires (throws : bool).

(** A signal reaches a handler only when an instance exists to carry
    the handler. *)
Definition deliver (h : Eff engine unit) : Eff engine unit :=
  r ← gets recognition;
  when (bool_decide (is_Some r)) h.

Definition step (ev : event) : Eff engine unit :=
  match ev with
  | CallStart throws => start throws;; mret tt
  | CallStop throws => stop throws
  | SignalStarted => deliver onstart_handler
  | SignalEnded throws => deliver (onend_handler throws)
  | SignalError => deliver onerror_handler
  | SignalResult ev => deliver (onresult_handler ev)
  | TimerFires throws =>
    timers ← gets pending;
    match timers with
    | [] => mret tt
    | _ :: rest => modify (set_pending rest);; restart_timer throws
    end
  end.

Fixpoint run (evs : list event) : Eff engine unit :=
  match evs with
  | [] => mret tt
  | ev :: evs' => step ev;; run evs'
  end.

End Engine.

End Recognition.

(** ** The audio capture engine *)

Module Capture.

(** *** Media streams *)

Inductive trackKind := AudioKind | VideoKind.

(** A track of a device stream, or the one audio track that the mix
    graph's destination node produces. *)
Inductive trackId := DeviceTrack (n : nat) | MixedTrack.

Record MediaStreamTrack := {
  track_id : trackId;
  kind : trackKind;
  enabled : bool;
  live : bool;                 (* readyState === "live" *)
}.

(** A stream is its tracks.  The engine keeps the captured stream in
    [systemStream] and hands copies of its audio tracks to the recorders;
    what it does to a track is recorded in the effect log, and
    [enabled = false] on the stream it holds as well. *)
Definition MediaStream := list MediaStreamTrack.

Definition is_audio (t : MediaStreamTrack) : bool :=
  match kind t with AudioKind => true | VideoKind => false end.

Definition getAudioTracks (s : MediaStream) : list MediaStreamTrack :=
  List.filter is_audio s.

Definition getVideoTracks (s : MediaStream) : list MediaStreamTrack :=
  List.filter (λ t, negb (is_audio t)) s.

(** [stream.active]: some track has not ended. *)
Definition active (s : MediaStream) : bool := existsb live s.

Definition disabled (t : MediaStreamTrack) : MediaStreamTrack :=
  {| track_id := track_id t; kind := kind t; enabled := false; live := live t |}.

(** *** Audio graph nodes and recorders *)

Inductive AudioNode :=
  | SourceNode | InputGain | Destination | Analyser
  | KeepAliveOscillator | KeepAliveGain.

Record OscillatorNode := { osc_started : bool; osc_stopped : bool }.

Inductive contextState := Suspended | Running | Closed.

Inductive recordingState := Inactive | Recording | Paused.

(** The two buffers of the rotation. *)
Inductive slot := Slot0 | Slot1.

Definition slot_index (i : slot) : nat :=
  match i with Slot0 => 0%nat | Slot1 => 1%nat end.

(** Which handlers a recorder carries: those [createRecorder(index)]
    sets, or the one [startSimpleRecording] sets. *)
Inductive role := Dual (index : slot) | Simple.

Record MediaRecorder := {
  rec_role : role;
  rec_stream : MediaStream;
  rec_mimeType : option string;
  rec_state : recordingState;
  rec_timeslice : option nat;
}.

Definition with_state (st : recordingState) (ts : option nat)
    (r : MediaRecorder) : MediaRecorder :=
  {| rec_role := rec_role r; rec_stream := rec_stream r;
     rec_mimeType := rec_mimeType r; rec_state := st; rec_timeslice := ts |}.

Definition is_inactive (r : MediaRecorder) : bool :=
  match rec_state r with Inactive => true | _ => false end.

Record AudioCaptureState := { micActive : bool; systemAudioActive : bool }.

Record SystemAudioChunk := { blob : Blob; timestamp : nat }.

(** *** Effects on the platform and on the client *)

(** The engine's calls into the platform and into its two callbacks, as
    they are made.  Calls that the Web APIs define as total
    ([clearInterval], [disconnect()], [track.stop()], setting [enabled],
    [gain.value] or [fftSize]) and the client's callbacks only leave an
    entry here; the calls that can throw are [recorder_start],
    [recorder_stop] and [oscillator_stop] by the state of their object,
    and the calls named by a [callsite] by the platform's refusal. *)

Inductive effect :=
  | AudioContextCreated
  | AudioContextResumed
  | AudioContextClosed
  | DisplayMediaGranted
  | UserMediaGranted
  | TrackDisabled (id : trackId)
  | TrackStopped (id : trackId)
  | OnEndedSet (id : trackId)
  | NodeCreated (n : AudioNode)
  | GainSet (n : AudioNode) (millionths : N)
  | FftSizeSet (size : N)
  | Connected (from to : AudioNode)
  | Disconnected (n : AudioNode)
  | OscillatorStarted
  | OscillatorStopped
  | RecorderCreated (r : role) (mimeType : option string)
  | RecorderStarted (r : role) (timeslice : option nat)
  | RecorderStopped (r : role)
  | IntervalSet (ms : nat)
  | IntervalCleared
  | ChunkDelivered (chunk : SystemAudioChunk)
  | StateChanged (st : AudioCaptureState)
  | ConsoleWarned (msg : string)
  | ConsoleErrored (msg : string).

(** Building the mix graph or a recorder. *)
Definition is_construction (x : effect) : bool :=
  match x with
  | NodeCreated _ | Connected _ _ | OscillatorStarted
  | RecorderCreated _ _ | RecorderStarted _ _ | IntervalSet _ => true
  | _ => false
  end.

(** The places where the platform can refuse a call by throwing. *)
Inductive callsite :=
  | AudioContextCtor
  | AudioContextResume
  | CreateMediaStreamSource
  | CreateMediaStreamDestination
  | CreateInputGain
  | CreateAnalyser
  | ConnectSourceToGain
  | ConnectGainToDestination
  | ConnectGainToAnalyser
  | CreateOscillator
  | CreateKeepAliveGain
  | ConnectOscillatorToGain
  | ConnectKeepAliveToDestination
  | OscillatorStart
  | MediaStreamCtor (r : role)
  | RecorderCtorWithMime (r : role)
  | RecorderCtorDefault (r : role)
  | RecorderStart (r : role).

(** *** The engine *)

Record engine := {
  micStream : option MediaStream;
  systemStream : option MediaStream;
  recorders : list MediaRecorder;
  recorderChunks : list (list Blob);
  activeRecorderIndex : nat;
  switchInterval : option nat;           (* the timer and its period *)
  audioContext : option contextState;
  sourceNode : option AudioNode;
  inputGainNode : option AudioNode;
  destinationNode : option AudioNode;
  keepAliveOscillator : option OscillatorNode;
  analyserNode : option AudioNode;
  onChunkCallback : bool;                (* a function, or null *)
  onStateChange : bool;                  (* a function, or null *)
  log : list effect;                     (* oldest first *)
}.

(** An engine with the fields a caller names replaced. *)
Definition update (e : engine)
    (mic sys : option (option MediaStream))
    (recs : option (list MediaRecorder))
    (chunks : option (list (list Blob)))
    (idx : option nat)
    (timer : option (option nat))
    (ctx : option (option contextState))
    (src gain dst : option (option AudioNode))
    (osc : option (option OscillatorNode))
    (ana : option (option AudioNode))
    (lg : option (list effect)) : engine :=
  {| micStream := default (micStream e) mic;
     systemStream := default (systemStream e) sys;
     recorders := default (recorders e) recs;
     recorderChunks := default (recorderChunks e) chunks;
     activeRecorderIndex := default (activeRecorderIndex e) idx;
     switchInterval := default (switchInterval e) timer;
     audioContext := default (audioContext e) ctx;
     sourceNode := default (sourceNode e) src;
     inputGainNode := default (inputGainNode e) gain;
     destinationNode := default (destinationNode e) dst;
     keepAliveOscillator := default (keepAliveOscillator e) osc;
     analyserNode := default (analyserNode e) ana;
     onChunkCallback := onChunkCallback e;
     onStateChange := onStateChange e;
     log := default (log e) lg |}.

Definition set_micStream v e :=
  update e (Some v) None None None None None None None None None None None None.
Definition set_systemStream v e :=
  update e None (Some v) None None None None None None None None None None None.
Definition set_recorders v e :=
  update e None None (Some v) None None None None None None None None None None.
Definition set_recorderChunks v e :=
  update e None None None (Some v) None None None None None None None None None.
Definition set_activeRecorderIndex v e :=
  update e None None None None (Some v) None None None None None None None None.
Definition set_switchInterval v e :=
  update e None None None None None (Some v) None None None None None None None.
Definition set_audioContext v e :=
  update e None None None None None None (Some v) None None None None None None.
Definition set_sourceNode v e :=
  update e None None None None None None None (Some v) None None None None None.
Definition set_inputGainNode v e :=
  update e None None None None None None None None (Some v) None None None None.
Definition set_destinationNode v e :=
  update e None None None None None None None None None (Some v) None None None.
Definition set_keepAliveOscillator v e :=
  update e None None None None None None None None None None (Some v) None None.
Definition set_analyserNode v e :=
  update e None None None None None None None None None None None (Some v) None.
Definition set_log v e :=
  update e None None None None None None None None None None None None (Some v).

(** [new AudioCaptureEngine({ onChunk, onStateChange })] *)
Definition new_engine (onChunk onState : bool) : engine :=
  {| micStream := None; systemStream := None;
     recorders := []; recorderChunks := [[]; []];
     activeRecorderIndex := 0%nat; switchInterval := None;
     audioContext := None; sourceNode := None; inputGainNode := None;
     destinationNode := None; keepAliveOscillator := None;
     analyserNode := None;
     onChunkCallback := onChunk; onStateChange := onState; log := [] |}.

Definition emit (x : effect) : Eff engine unit :=
  modify (λ e, set_log (log e ++ [x]) e).

Definition emit_all (xs : list effect) : Eff engine unit :=
  modify (λ e, set_log (log e ++ xs) e).

Definition present {A} (o : option A) : bool :=
  match o with Some _ => true | None => false end.

Definition getState (e : engine) : AudioCaptureState :=
  {| micActive :=
       match micStream e with Some s => active s | None => false end;
     systemAudioActive :=
       match systemStream e with Some s => active s | None => false end |}.

Definition notifyStateChange : Eff engine unit :=
  e ← get;
  when (onStateChange e) (emit (StateChanged (getState e))).

(** The stream that [destinationNode.stream] is. *)
Definition mixedStream : MediaStream :=
  [ {| track_id := MixedTrack; kind := AudioKind; enabled := true; live := true |} ].

(** [this.recorders[i]]; reading [.state] of [undefined] throws. *)
Definition recorder_at (i : nat) : Eff engine MediaRecorder :=
  rs ← gets recorders;
  match (rs : list MediaRecorder) !! i with
  | Some r => mret r
  | None => throw TypeError
  end.

(** [this.recorders[i].start()]: refused unless the recorder is inactive. *)
Definition recorder_start (i : nat) : Eff engine unit :=
  r ← recorder_at i;
  if is_inactive r then
    modify (λ e, set_recorders (<[i := with_state Recording None r]> (recorders e)) e);;
    emit (RecorderStarted (rec_role r) None)
  else throw InvalidStateError.

(** [this.recorders[i].stop()]: refused when the recorder is inactive.
    The recorder becomes inactive at once; its [dataavailable] and
    [stop] events follow as tasks of their own. *)
Definition recorder_stop (i : nat) : Eff engine unit :=
  r ← recorder_at i;
  if is_inactive r then throw InvalidStateError
  else
    modify (λ e, set_recorders
              (<[i := with_state Inactive (rec_timeslice r) r]> (recorders e)) e);;
    emit (RecorderStopped (rec_role r)).

(** [keepAliveOscillator.stop()]: refused when [start()] was never called. *)
Definition oscillator_stop (o : OscillatorNode) : Eff engine unit :=
  if osc_started o then
    modify (set_keepAliveOscillator
              (Some {| osc_started := true; osc_stopped := true |}));;
    emit OscillatorStopped
  else throw InvalidStateError.

(** [recorders.forEach(rec => { if (rec && rec.state !== "inactive") rec.stop() })],
    from position [i] on. *)
Fixpoint stop_recorders (rs : list MediaRecorder) (i : nat) : Eff engine unit :=
  match rs with
  | [] => mret tt
  | r :: rs' =>
    when (negb (is_inactive r)) (recorder_stop i);;
    stop_recorders rs' (S i)
  end.

(** [if (this.f) { this.f.disconnect(); this.f = null }] *)
Definition release (field : engine → option AudioNode)
    (clear : engine → engine) : Eff engine unit :=
  n ← gets field;
  match n : option AudioNode with
  | Some k => emit (Disconnected k);; modify clear
  | None => mret tt
  end.

Definition stopSystemAudio : Eff engine unit :=
  timer ← gets switchInterval;
  when (present (timer : option nat))
    (emit IntervalCleared;; modify (set_switchInterval None));;
  rs ← gets recorders;
  stop_recorders rs 0;;
  modify (set_recorders []);;
  modify (set_recorderChunks [[]; []]);;
  osc ← gets keepAliveOscillator;
  match osc : option OscillatorNode with
  | Some o =>
    try_catch (oscillator_stop o) (λ _, mret tt);;
    emit (Disconnected KeepAliveOscillator);;
    modify (set_keepAliveOscillator None)
  | None => mret tt
  end;;
  release sourceNode (set_sourceNode None);;
  dst ← gets destinationNode;
  when (present (dst : option AudioNode)) (modify (set_destinationNode None));;
  release inputGainNode (set_inputGainNode None);;
  release analyserNode (set_analyserNode None);;
  sys ← gets systemStream;
  match sys : option MediaStream with
  | Some s =>
    emit_all (map (λ t, TrackStopped (track_id t)) s);;
    modify (set_systemStream None)
  | None => mret tt
  end;;
  notifyStateChange.

Definition stopMicrophone : Eff engine unit :=
  mic ← gets micStream;
  match mic : option MediaStream with
  | Some s =>
    emit_all (map (λ t, TrackStopped (track_id t)) s);;
    modify (set_micStream None)
  | None => mret tt
  end;;
  notifyStateChange.

Definition stopAll : Eff engine unit :=
  stopMicrophone;;
  stopSystemAudio;;
  ctx ← gets audioContext;
  match ctx : option contextState with
  | Some Closed | None => mret tt
  | Some _ => emit AudioContextClosed;; modify (set_audioContext None)
  end.

(** *** Recorder events *)

(** [recorder.ondataavailable] of [createRecorder(index)]. *)
Definition ondataavailable (index : slot) (data : Blob) : Eff engine unit :=
  when (bool_decide (0 < blob_size data)%nat)
    (chunks ← gets recorderChunks;
     match (chunks : list (list Blob)) !! slot_index index with
     | Some buffer =>
       modify (set_recorderChunks (<[slot_index index := buffer ++ [data]]> chunks))
     | None => throw TypeError
     end).

(** [recorder.onstop] of [createRecorder(index)], run at time [now].
    [index] is 0 or 1 and [recorderChunks] holds two buffers whenever a
    recorder exists, so the buffer is there to read and to replace. *)
Definition onstop (index : slot) (now : nat) : Eff engine unit :=
  chunks ← gets recorderChunks;
  let blob :=
    new_Blob (default [] ((chunks : list (list Blob)) !! slot_index index))
             "audio/webm;codecs=opus" in
  modify (set_recorderChunks (<[slot_index index := []]> chunks));;
  callback ← gets onChunkCallback;
  when (bool_decide (0 < blob_size blob)%nat && callback)
    (emit (ChunkDelivered {| blob := blob; timestamp := now |})).

(** [recorder.ondataavailable] of [startSimpleRecording]. *)
Definition ondataavailable_simple (data : Blob) (now : nat) : Eff engine unit :=
  callback ← gets onChunkCallback;
  when (bool_decide (0 < blob_size data)%nat && callback)
    (emit (ChunkDelivered {| blob := data; timestamp := now |})).

(** The function given to [setInterval] by [startDualRecording]. *)
Definition switchTick : Eff engine unit :=
  current ← gets activeRecorderIndex;
  let nextIndex := ((current + 1) mod 2)%nat in
  let currentIndex : nat := current in
  next ← recorder_at nextIndex;
  when (is_inactive next) (recorder_start nextIndex);;
  cur ← recorder_at currentIndex;
  when (negb (is_inactive cur)) (recorder_stop currentIndex);;
  modify (set_activeRecorderIndex nextIndex).

(** *** Starting a channel *)

Section Platform.

(** The platform of one run: where it refuses a call, what the two
    capture requests give, and the state a new [AudioContext] starts
    in. *)
Variable fails : callsite → bool.
Variable displayMedia : attempt MediaStream.
Variable userMedia : attempt MediaStream.
Variable initialContextState : contextState.

Definition platform (c : callsite) (e : exn) : Eff engine unit :=
  if fails c then throw e else mret tt.

Definition startMicrophone : Eff engine bool :=
  try_catch
    (stream ← await userMedia;
     emit UserMediaGranted;;
     modify (set_micStream (Some stream));;
     notifyStateChange;;
     mret true)
    (λ error, emit (ConsoleErrored "マイクアクセス失敗:");; mret false).

(** [try { new MediaRecorder(audioStream, { mimeType }) }
     catch { new MediaRecorder(audioStream) }] with the handlers of [r]. *)
Definition new_MediaRecorder (audioStream : MediaStream) (r : role)
  : Eff engine MediaRecorder :=
  try_catch
    (platform (RecorderCtorWithMime r) NotSupportedError;;
     emit (RecorderCreated r (Some "audio/webm;codecs=opus"));;
     mret {| rec_role := r; rec_stream := audioStream;
             rec_mimeType := Some "audio/webm;codecs=opus";
             rec_state := Inactive; rec_timeslice := None |})
    (λ _,
       platform (RecorderCtorDefault r) NotSupportedError;;
       emit (RecorderCreated r None);;
       mret {| rec_role := r; rec_stream := audioStream;
               rec_mimeType := None;
               rec_state := Inactive; rec_timeslice := None |}).

Definition startDualRecording (stream : MediaStream) : Eff engine unit :=
  platform (MediaStreamCtor (Dual Slot0)) TypeError;;
  let audioStream := getAudioTracks stream in
  r0 ← new_MediaRecorder audioStream (Dual Slot0);
  r1 ← new_MediaRecorder audioStream (Dual Slot1);
  modify (set_recorders [r0; r1]);;
  modify (set_activeRecorderIndex 0%nat);;
  platform (RecorderStart (Dual Slot0)) NotSupportedError;;
  recorder_start 0;;
  emit (IntervalSet 3000);;
  modify (set_switchInterval (Some 3000%nat)).

Definition startSimpleRecording (stream : MediaStream) : Eff engine unit :=
  platform (MediaStreamCtor Simple) TypeError;;
  let audioStream := getAudioTracks stream in
  recorder ← new_MediaRecorder audioStream Simple;
  platform (RecorderStart Simple) NotSupportedError;;
  emit (RecorderStarted Simple (Some 3000%nat));;
  modify (set_recorders [with_state Recording (Some 3000%nat) recorder]).

(** [this.f = this.audioContext.createX()] *)
Definition create (c : callsite) (n : AudioNode)
    (store : option AudioNode → engine → engine) : Eff engine unit :=
  platform c NotSupportedError;;
  modify (store (Some n));;
  emit (NodeCreated n).

Definition connect (c : callsite) (from to : AudioNode) : Eff engine unit :=
  platform c InvalidStateError;;
  emit (Connected from to).

(** The [try] block of [setupAudioMixing]: the graph
    source -> inputGain -> destination and analyser, the keep-alive
    oscillator into the destination, then the recorders on the
    destination's stream. *)
Definition buildMixGraph : Eff engine unit :=
  create CreateMediaStreamSource SourceNode set_sourceNode;;
  create CreateMediaStreamDestination Destination set_destinationNode;;
  create CreateInputGain InputGain set_inputGainNode;;
  emit (GainSet InputGain 5000000);;
  create CreateAnalyser Analyser set_analyserNode;;
  emit (FftSizeSet 256);;
  connect ConnectSourceToGain SourceNode InputGain;;
  connect ConnectGainToDestination InputGain Destination;;
  connect ConnectGainToAnalyser InputGain Analyser;;
  platform CreateOscillator NotSupportedError;;
  modify (set_keepAliveOscillator
            (Some {| osc_started := false; osc_stopped := false |}));;
  emit (NodeCreated KeepAliveOscillator);;
  platform CreateKeepAliveGain NotSupportedError;;
  emit (NodeCreated KeepAliveGain);;
  emit (GainSet KeepAliveGain 100);;
  connect ConnectOscillatorToGain KeepAliveOscillator KeepAliveGain;;
  connect ConnectKeepAliveToDestination KeepAliveGain Destination;;
  platform OscillatorStart InvalidStateError;;
  modify (set_keepAliveOscillator
            (Some {| osc_started := true; osc_stopped := false |}));;
  emit OscillatorStarted;;
  startDualRecording mixedStream.

Definition setupAudioMixing (stream : MediaStream) : Eff engine unit :=
  ctx ← gets audioContext;
  if negb (present (ctx : option contextState)) then mret tt
  else
    try_catch buildMixGraph
      (λ error,
         emit (ConsoleErrored "AudioContext設定エラー:");;
         startSimpleRecording stream).

Definition startSystemAudio : Eff engine bool :=
  try_catch
    (ctx ← gets audioContext;
     when (negb (present (ctx : option contextState)))
       (platform AudioContextCtor NotSupportedError;;
        modify (set_audioContext (Some initialContextState));;
        emit AudioContextCreated);;
     ctx ← gets audioContext;
     when (match ctx : option contextState with
           | Some Suspended => true
           | _ => false
           end)
       (platform AudioContextResume InvalidStateError;;
        modify (set_audioContext (Some Running));;
        emit AudioContextResumed);;
     stream ← await displayMedia;
     emit DisplayMediaGranted;;
     modify (set_systemStream (Some stream));;
     let audioTracks := getAudioTracks stream in
     match audioTracks with
     | [] =>
       emit (ConsoleWarned
         "システム音声トラックが検出されませんでした。「音声を共有」にチェックを入れてください。");;
       stopSystemAudio;;
       mret false
     | firstAudio :: _ =>
       let muted :=
         map (λ t, if is_audio t then t else disabled t) stream in
       emit_all (map (λ t, TrackDisabled (track_id t)) (getVideoTracks stream));;
       modify (set_systemStream (Some muted));;
       setupAudioMixing muted;;
       emit (OnEndedSet (track_id firstAudio));;
       notifyStateChange;;
       mret true
     end)
    (λ error,
       emit (ConsoleErrored "システム音声キャプチャ失敗:");;
       mret false).

(** [startSystemAudio] is an [async] function: it suspends at
    [await this.audioContext.resume()] (line 87) and at
    [await navigator.mediaDevices.getDisplayMedia(...)] (line 90), and
    other calls and events run on the engine while it waits, for as long
    as the share picker is open.  The definition above is the run in which
    none does.  What follows the second [await] is one synchronous turn,
    lines 90 to 126 from the assignment of the awaited stream on; it reads
    every field anew, on the engine as the calls in between have left it:
    after a [stopAll] it finds no audio context, and [setupAudioMixing]
    returns at its first line. *)
Definition startSystemAudio_resumed : Eff engine bool :=
  try_catch
    (stream ← await displayMedia;
     emit DisplayMediaGranted;;
     modify (set_systemStream (Some stream));;
     let audioTracks := getAudioTracks stream in
     match audioTracks with
     | [] =>
       emit (ConsoleWarned
         "システム音声トラックが検出されませんでした。「音声を共有」にチェックを入れてください。");;
       stopSystemAudio;;
       mret false
     | firstAudio :: _ =>
       let muted :=
         map (λ t, if is_audio t then t else disabled t) stream in
       emit_all (map (λ t, TrackDisabled (track_id t)) (getVideoTracks stream));;
       modify (set_systemStream (Some muted));;
       setupAudioMixing muted;;
       emit (OnEndedSet (track_id firstAudio));;
       notifyStateChange;;
       mret true
     end)
    (λ error,
       emit (ConsoleErrored "システム音声キャプチャ失敗:");;
       mret false).

End Platform.

End Capture.

(** ** Evaluation templates ([useEvalTemplates]) *)

Module Templates.
Import JsString.

Record ScoreOption := { value : jsstring; score_label : jsstring }.

(** [DEFAULT_SCORE_OPTIONS] of [useInterviewStore]. *)
Definition DEFAULT_SCORE_OPTIONS : list ScoreOption :=
  [ {| value := []; score_label := js "-" |};
    {| value := js "5"; score_label := js "5 (非常に良い)" |};
    {| value := js "4"; score_label := js "4 (良い)" |};
    {| value := js "3"; score_label := js "3 (普通)" |};
    {| value := js "2"; score_label := js "2 (やや不足)" |};
    {| value := js "1"; score_label := js "1 (不足)" |} ].

Record EvalTemplateItem := { label : jsstring }.

(** [scoreOptions] is an optional member. *)
Record EvalTemplate := {
  id : jsstring;
  name : jsstring;
  items : list EvalTemplateItem;
  scoreOptions : option (list ScoreOption);
  createdAt : jsstring;
}.

Definition MAX_ITEMS : nat := 10.

(** [getDefaultTemplates()], with [new Date().toISOString()] as [iso]. *)
Definition getDefaultTemplates (iso : jsstring) : list EvalTemplate :=
  [ {| id := js "default";
       name := js "標準テンプレート";
       items := [ {| label := js "基礎能力・専門性" |};
                  {| label := js "志向性" |};
                  {| label := js "ヒューマンスキル" |};
                  {| label := js "性格" |};
                  {| label := js "総合評価・生い立ち" |} ];
       scoreOptions := Some DEFAULT_SCORE_OPTIONS;
       createdAt := iso |} ].

(** The decimal digits of a non-negative integer, as a template literal
    writes a number such as [Date.now()]. *)
Fixpoint digits (d : Decimal.uint) : jsstring :=
  match d with
  | Decimal.Nil => []
  | Decimal.D0 d' => 48 :: digits d'
  | Decimal.D1 d' => 49 :: digits d'
  | Decimal.D2 d' => 50 :: digits d'
  | Decimal.D3 d' => 51 :: digits d'
  | Decimal.D4 d' => 52 :: digits d'
  | Decimal.D5 d' => 53 :: digits d'
  | Decimal.D6 d' => 54 :: digits d'
  | Decimal.D7 d' => 55 :: digits d'
  | Decimal.D8 d' => 56 :: digits d'
  | Decimal.D9 d' => 57 :: digits d'
  end.

Definition number_to_string (n : N) : jsstring := digits (N.to_uint n).

(** The template [addTemplate] builds; [now] is [Date.now()] and [iso]
    is [new Date().toISOString()].  An array given for [scoreOptions] is
    truthy even when empty, so only a missing one takes the default. *)
Definition newTemplate (now : N) (iso : jsstring) (name : jsstring)
    (items : list EvalTemplateItem) (scoreOptions : option (list ScoreOption))
  : EvalTemplate :=
  let trimmed := take MAX_ITEMS items in
  {| id := js "tmpl_" ++ number_to_string now;
     name := name;
     items := trimmed;
     scoreOptions := Some (default DEFAULT_SCORE_OPTIONS scoreOptions);
     createdAt := iso |}.

(** The three operations, each as the function it gives to
    [setTemplates]; [addTemplate] also returns the new template. *)
Definition addTemplate (now : N) (iso : jsstring) (name : jsstring)
    (items : list EvalTemplateItem) (scoreOptions : option (list ScoreOption))
  : EvalTemplate * (list EvalTemplate → list EvalTemplate) :=
  let t := newTemplate now iso name items scoreOptions in
  (t, λ prev, prev ++ [t]).

Definition updateTemplate (i : jsstring) (name : jsstring)
    (items : list EvalTemplateItem) (scoreOptions : option (list ScoreOption))
  : list EvalTemplate → list EvalTemplate :=
  let trimmed := take MAX_ITEMS items in
  λ prev,
    map (λ t, if bool_decide (id t = i)
              then {| id := id t; name := name; items := trimmed;
                      scoreOptions := match scoreOptions with
                                      | Some o => Some o
                                      | None => Templates.scoreOptions t
                                      end;
                      createdAt := createdAt t |}
              else t)
        prev.

Definition deleteTemplate (i : jsstring)
  : list EvalTemplate → list EvalTemplate :=
  λ prev,
    if (length prev <=? 1)%nat then prev
    else List.filter (λ t, negb (bool_decide (id t = i))) prev.

(** A call of one of the three operations, and the state after a
    sequence of calls: React applies the queued functions in order. *)
Inductive action :=
  | Add (now : N) (iso name : jsstring) (items : list EvalTemplateItem)
        (scoreOptions : option (list ScoreOption))
  | Update (i name : jsstring) (items : list EvalTemplateItem)
           (scoreOptions : option (list ScoreOption))
  | Delete (i : jsstring).

Definition updater (a : action) : list EvalTemplate → list EvalTemplate :=
  match a with
  | Add now iso name items scoreOptions =>
    snd (addTemplate now iso name items scoreOptions)
  | Update i name items scoreOptions => updateTemplate i name items scoreOptions
  | Delete i => deleteTemplate i
  end.

Definition apply_all (acts : list action) (templates : list EvalTemplate)
  : list EvalTemplate :=
  foldl (λ prev a, updater a prev) templates acts.

End Templates.

(** ** The connection test ([testGroqConnection] of [src/lib/ai-service.ts]) *)

Module Connection.
Import JsString Groq.

Record TestResult := { success : bool; message : jsstring }.

(** The request of the test: the list of models, with the key as bearer
    token, by [fetch]'s default method and with no body. *)
Definition models_request (groqApiKey : jsstring) : Request :=
  {| url := "https://api.groq.com/openai/v1/models";
     method := "GET";
     authorization := js "Bearer " ++ groqApiKey;
     body := [] |}.

Section Test.

Variable fetch : Request → attempt Response.

(** [error instanceof Error ? error.message : String(error)] *)
Variable errorMessage : exn → jsstring.

Definition testGroqConnection (groqApiKey : jsstring)
  : Eff console TestResult :=
  if negb (truthy groqApiKey) then
    mret {| success := false; message := js "Groq APIキーが未入力です" |}
  else
    try_catch
      (response ← await (fetch (models_request groqApiKey));
       if negb (ok response) then
         errText ← await (text response);
         mret {| success := false;
                 message := js "接続エラー ("
                            ++ Templates.number_to_string (status response)
                            ++ js "): " ++ errText |}
       else
         mret {| success := true;
                 message :=
                   js "✅ Groq API接続成功！Whisperモデルが利用可能です。" |})
      (λ error,
         mret {| success := false;
                 message := js "接続エラー: " ++ errorMessage error |}).

End Test.

End Connection.

(** ** From a chunk to the conversation log
       ([handleAudioChunk] of the recording panel, [addLog] of the store) *)

Module Panel.
Import JsString Groq.

Inductive Speaker := Self | Other.

Record LogItem := { time : jsstring; text : jsstring; speaker : Speaker }.

(** The members of the store's state that [addLog] writes; the updater
    copies every other member. *)
Record InterviewState := { logs : list LogItem; aiBuffer : jsstring }.

(** [addLog(text, speaker)], as the function it gives to [setState];
    [time] is [new Date().toLocaleTimeString(...)]. *)
Definition addLog (time text : jsstring) (speaker : Speaker)
  : InterviewState → InterviewState :=
  let logItem := {| time := time; text := text; speaker := speaker |} in
  λ prev,
    {| logs := logs prev ++ [logItem];
       aiBuffer := aiBuffer prev ++ text ++ [10] |}.

(** The page: the console and the store. *)
Record page := { page_console : console; page_state : InterviewState }.

(** A computation on the console, run on the page. *)
Definition on_console {A} (m : Eff console A) : Eff page A :=
  λ p,
    match m (page_console p) with
    | Ret a c => Ret a {| page_console := c; page_state := page_state p |}
    | Raise e c => Raise e {| page_console := c; page_state := page_state p |}
    end.

(** [onOtherTranscript], as the page passes it: [(text) => addLog(text, "other")]. *)
Definition onOtherTranscript (time text : jsstring) : Eff page unit :=
  modify (λ p, {| page_console := page_console p;
                  page_state := addLog time text Other (page_state p) |}).

Section Handler.

Variable fetch : Request → attempt Response.
Variable newFormData : attempt unit.
Variable groqApiKey : jsstring.

(** [handleAudioChunk(chunk)]; [time] is the clock at the moment the
    transcript is logged. *)
Definition handleAudioChunk (time : jsstring) (chunk : Capture.SystemAudioChunk)
  : Eff page unit :=
  if negb (truthy groqApiKey) then mret tt
  else
    text ← on_console
              (transcribeWithGroq fetch newFormData (Capture.blob chunk) groqApiKey);
    match text with
    | Some t => when (truthy t) (onOtherTranscript time t)
    | None => mret tt
    end.

End Handler.

(** One delivery of a chunk: the chunk, and the network and the clock at
    that moment. *)
Record delivery := {
  chunk : Capture.SystemAudioChunk;
  network : Request → attempt Response;
  formData : attempt unit;
  clock : jsstring;
}.

Fixpoint handle_chunks (groqApiKey : jsstring) (ds : list delivery)
  : Eff page unit :=
  match ds with
  | [] => mret tt
  | d :: ds' =>
    handleAudioChunk (network d) (formData d) groqApiKey (clock d) (chunk d);;
    handle_chunks groqApiKey ds'
  end.

End Panel.

(** * Properties *)

(** ** The monad *)

Lemma try_catch_returns {S A} (m : Eff S A) (h : exn → Eff S A) s :
  (∀ e s1, ∃ a s2, h e s1 = Ret a s2) →
  ∃ a s', try_catch m h s = Ret a s'.
Proof.
  intros Hh. unfold try_catch.
  destruct (m s) as [a s1|e s1]; [by exists a, s1|apply Hh].
Qed.

Lemma bind_ret_l {S A B} (f : A → Eff S B) (m : Eff S A) s a s1 :
  m s = Ret a s1 → (m ≫= f) s = f a s1.
Proof. intros H. unfold mbind, Eff_bind, eff_bind. by rewrite H. Qed.

Lemma bind_raise_l {S A B} (f : A → Eff S B) (m : Eff S A) s e s1 :
  m s = Raise e s1 → (m ≫= f) s = Raise e s1.
Proof. intros H. unfold mbind, Eff_bind, eff_bind. by rewrite H. Qed.

(** ** JavaScript strings *)

Module JsStringFacts.

Example js_subtitles : js "字幕" = [0x5B57; 0x5E55].
Proof. reflexivity. Qed.

Example js_surrogates : js "a𝄞" = [0x61; 0xD834; 0xDD1E].
Proof. reflexivity. Qed.

Example trim_both_ends :
  trim ([0x3000; 0x20] ++ js "はい ok" ++ [0x0A; 0x09]) = js "はい ok".
Proof. reflexivity. Qed.

Example includes_inside : includes (js "チャンネル登録お願いします") (js "登録") = true.
Proof. reflexivity. Qed.

Example includes_not : includes (js "よろしくお願いします") (js "字幕") = false.
Proof. reflexivity. Qed.

Lemma startsWith_spec t h :
  startsWith t h = true ↔ ∃ b, t = h ++ b.
Proof.
  revert t. induction h as [|x h IH]; intros t; simpl.
  - split; [intros _; by exists t|done].
  - destruct t as [|y t].
    + split; [done|intros [b Hb]; discriminate].
    + rewrite andb_true_iff, N.eqb_eq, IH. split.
      * intros [-> [b ->]]. by exists b.
      * intros [b Hb]. simplify_eq/=. eauto.
Qed.

Lemma includes_spec t h :
  includes t h = true ↔ ∃ a b, t = a ++ h ++ b.
Proof.
  induction t as [|y t IH].
  - simpl. rewrite orb_false_r, startsWith_spec. split.
    + intros [b Hb]. by exists [], b.
    + intros (a & b & Hab). symmetry in Hab.
      apply app_eq_nil in Hab as [-> Hab].
      apply app_eq_nil in Hab as [-> ->]. by exists [].
  - cbn [includes]. rewrite orb_true_iff, startsWith_spec, IH. split.
    + intros [[b Hb]|(a & b & Hab)].
      * by exists [], b.
      * exists (y :: a), b. by rewrite Hab.
    + intros (a & b & Hab). destruct a as [|z a].
      * left. by exists b.
      * right. simplify_eq/=. eauto.
Qed.

Lemma truthy_false s : truthy s = false ↔ s = [].
Proof. by destruct s. Qed.

(** A text with no white space at either end is its own trim. *)
Lemma trimStart_fixed c s :
  isWhiteSpace c = false → trimStart (c :: s) = c :: s.
Proof. intros H. simpl. by rewrite H. Qed.

Lemma trim_fixed first middle last :
  isWhiteSpace first = false →
  isWhiteSpace last = false →
  trim (first :: middle ++ [last]) = first :: middle ++ [last].
Proof.
  intros Hf Hl. unfold trim, trimEnd. rewrite (trimStart_fixed _ _ Hf).
  change (first :: middle ++ [last]) with ((first :: middle) ++ [last]).
  rewrite rev_app_distr. cbn [rev app].
  rewrite (trimStart_fixed _ _ Hl).
  change (last :: rev middle ++ [first]) with ([last] ++ rev (first :: middle)).
  by rewrite rev_app_distr, rev_involutive.
Qed.

Lemma trim_single c : isWhiteSpace c = false → trim [c] = [c].
Proof. intros H. unfold trim, trimEnd. cbn. rewrite H. cbn. by rewrite H. Qed.

End JsStringFacts.

(** ** Batch transcription *)

Module GroqFacts.
Import Groq JsStringFacts.

(** A text holds a denylist entry as a substring. *)
Definition denylisted (t : jsstring) : Prop :=
  ∃ h, h ∈ WHISPER_HALLUCINATIONS ∧ ∃ a b, t = a ++ h ++ b.

Lemma some_includes_spec t :
  existsb (λ h, includes t h) WHISPER_HALLUCINATIONS = true ↔ denylisted t.
Proof.
  rewrite existsb_exists. unfold denylisted. split.
  - intros (h & Hin & Hinc). exists h.
    by rewrite list_elem_of_In, <- includes_spec.
  - intros (h & Hin & Hinc). exists h.
    by rewrite <- list_elem_of_In, includes_spec.
Qed.

Lemma dropHallucination_returns t c :
  ∃ c', dropHallucination t c =
        Ret (match t with
             | None => None
             | Some t =>
               if negb (truthy t)
                  || existsb (λ h, includes t h) WHISPER_HALLUCINATIONS
               then None else Some t
             end) c'.
Proof.
  destruct t as [t|]; [|by exists c]. unfold dropHallucination.
  destruct (truthy t); cbn [negb orb]; [|by exists c].
  destruct (existsb (λ h, includes t h) WHISPER_HALLUCINATIONS); by eexists.
Qed.

Section Responses.

Variable fetch : Request → attempt Response.
Variable newFormData : attempt unit.
Variable audioBlob : Blob.
Variable groqApiKey : jsstring.

(** A well-formed answer of the service: HTTP success and a JSON body
    whose [text] member is the string [raw]. *)
Lemma transcribe_answered response data raw c :
  truthy groqApiKey = true →
  newFormData = Resolves tt →
  fetch (transcription_request audioBlob groqApiKey) = Resolves response →
  ok response = true →
  json response = Resolves data →
  get_property data "text" = Resolves (Some (JString raw)) →
  transcribeWithGroq fetch newFormData audioBlob groqApiKey c
  = dropHallucination (Some (trim raw)) c.
Proof.
  intros Hkey -> Hfetch Hok Hjson Hget.
  unfold transcribeWithGroq. rewrite Hkey. cbn [negb].
  unfold try_catch, mbind, Eff_bind, eff_bind.
  rewrite Hfetch. cbn [await mret Eff_ret eff_ret].
  rewrite Hok. cbn [negb]. rewrite Hjson. cbn [await mret Eff_ret eff_ret].
  rewrite Hget. cbn [await mret Eff_ret eff_ret optional_trim].
  by destruct (dropHallucination_returns (Some (trim raw)) c) as [c' ->].
Qed.

(** A response without a text, or with [null] for it, gives [null]. *)
Lemma transcribe_no_text response data member c :
  truthy groqApiKey = true →
  newFormData = Resolves tt →
  fetch (transcription_request audioBlob groqApiKey) = Resolves response →
  ok response = true →
  json response = Resolves data →
  get_property data "text" = Resolves member →
  member = None ∨ member = Some JNull →
  returned (transcribeWithGroq fetch newFormData audioBlob groqApiKey c)
  = Some None.
Proof.
  intros Hkey -> Hfetch Hok Hjson Hget Hmember.
  unfold transcribeWithGroq. rewrite Hkey. cbn [negb].
  unfold try_catch, mbind, Eff_bind, eff_bind.
  rewrite Hfetch. cbn [await mret Eff_ret eff_ret].
  rewrite Hok. cbn [negb]. rewrite Hjson. cbn [await mret Eff_ret eff_ret].
  rewrite Hget. by destruct Hmember as [-> | ->].
Qed.

End Responses.

(** What the call hands to its caller: [Some None] for [null],
    [Some (Some t)] for the text [t], [None] for a throw. *)
Definition answer_of fetch newFormData audioBlob groqApiKey c
  : option (option jsstring) :=
  returned (transcribeWithGroq fetch newFormData audioBlob groqApiKey c).

(** C2.  For every response that carries a text, the call yields no
    transcript exactly when the trimmed text is empty or holds a denylist
    entry as a substring, and yields the trimmed text as it is otherwise
    (the text itself when it has no white space to trim).  The sign-off
    phrase is dropped and the greeting comes back unchanged. *)
Theorem hallucination_filter
    fetch newFormData audioBlob groqApiKey response data raw c :
  truthy groqApiKey = true →
  newFormData = Resolves tt →
  fetch (transcription_request audioBlob groqApiKey) = Resolves response →
  ok response = true →
  json response = Resolves data →
  get_property data "text" = Resolves (Some (JString raw)) →
  let answer := answer_of fetch newFormData audioBlob groqApiKey c in
  (answer = Some None ↔ trim raw = [] ∨ denylisted (trim raw))
  ∧ (answer ≠ Some None → answer = Some (Some (trim raw)))
  ∧ (trim raw = raw → answer ≠ Some None → answer = Some (Some raw))
  ∧ (raw = js "ご視聴ありがとうございました" → answer = Some None)
  ∧ (raw = js "よろしくお願いします" → answer = Some (Some raw)).
Proof.
  intros Hkey Hform Hfetch Hok Hjson Hget answer. subst answer.
  unfold answer_of.
  rewrite (transcribe_answered _ _ _ _ response data raw c) by done.
  destruct (dropHallucination_returns (Some (trim raw)) c) as [c' Hd].
  assert (Hcases :
    returned (dropHallucination (Some (trim raw)) c) = Some None
    ↔ trim raw = [] ∨ denylisted (trim raw)).
  { rewrite Hd. cbn [returned].
    rewrite <- truthy_false, <- some_includes_spec.
    destruct (truthy (trim raw)); cbn [negb orb].
    - destruct (existsb _ WHISPER_HALLUCINATIONS);
        split; [by right|done|done|by intros [|]].
    - split; [by left|done]. }
  assert (Hpass :
    returned (dropHallucination (Some (trim raw)) c) ≠ Some None →
    returned (dropHallucination (Some (trim raw)) c) = Some (Some (trim raw))).
  { rewrite Hd. cbn [returned].
    by destruct (negb (truthy (trim raw)) || existsb _ WHISPER_HALLUCINATIONS). }
  split_and!; [done|done|intros Heq Hne; by rewrite (Hpass Hne), Heq| |].
  - intros ->. apply Hcases. right.
    apply some_includes_spec. by vm_compute.
  - intros ->. apply Hpass. rewrite Hcases.
    rewrite <- truthy_false, <- some_includes_spec. vm_compute. by intros [|].
Qed.

(** A sample answer of the service: a sign-off sentence with white
    space around it. *)
Definition sample_raw : jsstring :=
  js " 本日はご視聴ありがとうございました。 ".

Definition sample_response : Response :=
  {| ok := true; status := 200; text := Resolves [];
     json := Resolves (JObject [("text", JString sample_raw)]) |}.

Definition sample_blob : Blob :=
  {| blob_bytes := [26; 69]; blob_type := "audio/webm" |}.

Lemma hallucination_filter_witness :
  answer_of (λ _, Resolves sample_response) (Resolves tt)
            sample_blob (js "gsk") [] = Some None.
Proof.
  pose proof (hallucination_filter
                (λ _, Resolves sample_response) (Resolves tt)
                sample_blob (js "gsk") sample_response
                (JObject [("text", JString sample_raw)]) sample_raw []
                eq_refl eq_refl eq_refl eq_refl eq_refl eq_refl) as [H _].
  apply H. right. apply some_includes_spec. vm_compute. reflexivity.
Defined.

(** Closes a case of [transcribeWithGroq]: the call has returned, and
    each premise about the network either names this case or contradicts
    the case at hand. *)
Local Ltac settle :=
  eexists _, _; split; [reflexivity|];
  repeat split; intros; simplify_eq; congruence.

(** C3.  The call never throws to its caller: for every key, blob and
    behaviour of the network it returns, and it returns [null] when the
    key is missing, when [FormData] or [fetch] throws, when the HTTP
    response is not OK, and when reading or parsing the body throws. *)
Theorem transcribeWithGroq_never_throws fetch newFormData audioBlob groqApiKey c :
  ∃ r c',
    transcribeWithGroq fetch newFormData audioBlob groqApiKey c = Ret r c'
    ∧ (groqApiKey = [] → r = None)
    ∧ (∀ e, newFormData = Rejects e → r = None)
    ∧ (∀ e, fetch (transcription_request audioBlob groqApiKey) = Rejects e →
            r = None)
    ∧ (∀ response,
         fetch (transcription_request audioBlob groqApiKey) = Resolves response →
         (ok response = false → r = None)
         ∧ (∀ e, json response = Rejects e → r = None)
         ∧ (∀ data e, json response = Resolves data →
                      get_property data "text" = Rejects e → r = None)
         ∧ (∀ data member e, json response = Resolves data →
                      get_property data "text" = Resolves member →
                      optional_trim member = Rejects e → r = None)).
Proof.
  unfold transcribeWithGroq.
  destruct groqApiKey as [|k key]; cbn [truthy negb]; [settle|].
  unfold try_catch, mbind, Eff_bind, eff_bind.
  destruct newFormData as [[]|e0] eqn:Hform;
    cbn [await mret Eff_ret eff_ret throw]; [|settle].
  destruct (fetch _) as [response|e1] eqn:Hfetch;
    cbn [await mret Eff_ret eff_ret throw]; [|settle].
  destruct (ok response) eqn:Hok; cbn [negb].
  2:{ destruct (text response) as [body|e2];
        cbn [await mret Eff_ret eff_ret throw]; settle. }
  destruct (json response) as [data|e3] eqn:Hjson;
    cbn [await mret Eff_ret eff_ret throw]; [|settle].
  destruct (get_property data "text") as [member|e4] eqn:Hget;
    cbn [await mret Eff_ret eff_ret throw]; [|settle].
  destruct (optional_trim member) as [t|e5] eqn:Htrim;
    cbn [await mret Eff_ret eff_ret throw]; [|settle].
  destruct (dropHallucination_returns t c) as [c' ->]. settle.
Qed.

End GroqFacts.

(** ** The recognition session *)

Module RecognitionFacts.
Import Recognition.

(** The text of the results of a window that are final, and of those that
    are not, each in order. *)
Definition final_text (window : list SpeechRecognitionResult) : jsstring :=
  concat (map (λ r, transcript (first r)) (List.filter isFinal window)).

Definition interim_text (window : list SpeechRecognitionResult) : jsstring :=
  concat (map (λ r, transcript (first r))
              (List.filter (λ r, negb (isFinal r)) window)).

Lemma collect_spec rs finalText interimText :
  collect rs finalText interimText
  = (finalText ++ final_text rs, interimText ++ interim_text rs).
Proof.
  revert finalText interimText.
  induction rs as [|r rs IH]; intros finalText interimText.
  - unfold final_text, interim_text. simpl. by rewrite !app_nil_r.
  - cbn [collect]. unfold final_text, interim_text in *. cbn [List.filter].
    destruct (isFinal r); cbn [negb map concat]; rewrite IH;
      by rewrite <- !app_assoc.
Qed.

(** The calls an update makes to the client. *)
Definition delivered (window : list SpeechRecognitionResult) : list effect :=
  (if truthy (interim_text window)
   then [Called (onInterimResult (interim_text window))] else [])
  ++ (if truthy (final_text window)
      then [Called (onFinalResult (final_text window));
            Called (onInterimResult [])]
      else []).

Lemma onresult_handler_spec ev e :
  onresult_handler ev e
  = Ret tt (set_log (log e ++ delivered (drop (resultIndex ev) (results ev))) e).
Proof.
  unfold onresult_handler, delivered. rewrite collect_spec. cbn [app].
  destruct e as [r ir sr n p l].
  destruct (truthy (interim_text _)), (truthy (final_text _));
    cbv [when mbind Eff_bind eff_bind emit modify mret Eff_ret eff_ret
         set_log log recognition isRunning shouldRestart constructed pending];
    rewrite <- ?app_assoc, ?app_nil_r; reflexivity.
Qed.

(** C7.  On every update the results from the update's index on are split
    into final and interim text.  The final text of the window, when there
    is any, goes out concatenated in one [onFinalResult] call, which an
    empty [onInterimResult] call follows at once; the interim text, when
    there is any, goes out concatenated in one [onInterimResult] call
    before them.  The update makes no other call and changes no field. *)
Theorem result_delivery ev e :
  let window := drop (resultIndex ev) (results ev) in
  ∃ e',
    onresult_handler ev e = Ret tt e'
    ∧ log e' = log e ++ delivered window
    ∧ (recognition e', isRunning e', shouldRestart e', pending e')
      = (recognition e, isRunning e, shouldRestart e, pending e)
    ∧ (final_text window ≠ [] →
       delivered window
       = (if truthy (interim_text window)
          then [Called (onInterimResult (interim_text window))] else [])
         ++ [Called (onFinalResult (final_text window));
             Called (onInterimResult [])])
    ∧ (final_text window = [] →
       delivered window
       = if truthy (interim_text window)
         then [Called (onInterimResult (interim_text window))] else []).
Proof.
  intros window. eexists. split; [apply onresult_handler_spec|].
  fold window. destruct e as [r ir sr n p l]. cbn.
  split_and!; try done.
  - intros Hne. unfold delivered.
    by destruct (final_text window) as [|c t] eqn:Hf.
  - intros Hnil. unfold delivered. rewrite Hnil. cbn [truthy].
    by rewrite app_nil_r.
Qed.

(** *** The handlers, one signal at a time *)

Section Session.

Variable window : browser.
Variable callbacks : SpeechRecognitionCallbacks.

(** Runs a handler of the session on an engine given by its fields. *)
Ltac run_handler :=
  cbv [step deliver start stop onstart_handler onend_handler onerror_handler
       restart_timer recognition_start recognition_stop
       try_catch when mbind Eff_bind eff_bind emit modify gets get throw
       mret Eff_ret eff_ret
       set_log set_isRunning set_shouldRestart set_pending set_recognition
       set_constructed
       log recognition isRunning shouldRestart constructed pending
       bool_decide decide_rel is_Some_dec negb] in *.

(** An [ended] signal on a session that means to run: the flag goes down
    and the primitive's [start()] is called once, at once; no timer is set. *)
Lemma ended_restarts_once e id throws :
  recognition e = Some id →
  shouldRestart e = true →
  ∃ e',
    step window callbacks (SignalEnded throws) e = Ret tt e'
    ∧ log e' = log e ++ [PrimitiveStart ByEnded id]
    ∧ pending e' = pending e
    ∧ isRunning e' = false
    ∧ shouldRestart e' = true
    ∧ recognition e' = Some id.
Proof.
  destruct e as [r ir sr n p l]. cbn. intros -> ->.
  run_handler. destruct throws; by eexists.
Qed.

(** An [error] signal on a session that means to run sets one timer of
    1000 ms and calls nothing yet. *)
Lemma error_schedules_once e id :
  recognition e = Some id →
  shouldRestart e = true →
  ∃ e',
    step window callbacks SignalError e = Ret tt e'
    ∧ log e' = log e ++ [TimeoutSet 1000]
    ∧ pending e' = pending e ++ [1000%nat]
    ∧ (recognition e', isRunning e', shouldRestart e')
      = (recognition e, isRunning e, shouldRestart e).
Proof.
  destruct e as [r ir sr n p l]. cbn. intros -> ->.
  run_handler. by eexists.
Qed.

(** When that timer fires the primitive's [start()] is called once. *)
Lemma timer_restarts_once e id delay rest throws :
  recognition e = Some id →
  pending e = delay :: rest →
  ∃ e',
    step window callbacks (TimerFires throws) e = Ret tt e'
    ∧ log e' = log e ++ [PrimitiveStart ByErrorTimer id]
    ∧ pending e' = rest.
Proof.
  destruct e as [r ir sr n p l]. cbn. intros -> ->.
  run_handler. destruct throws; by eexists.
Qed.

(** [stop()] returns, whatever the primitive does, with both flags down. *)
Lemma stop_spec e throws :
  ∃ e',
    stop throws e = Ret tt e'
    ∧ isRunning e' = false
    ∧ shouldRestart e' = false
    ∧ recognition e' = recognition e
    ∧ pending e' = pending e
    ∧ log e' = log e ++ match recognition e with
                        | Some id => [PrimitiveStop id]
                        | None => []
                        end.
Proof.
  destruct e as [[id|] ir sr n p l]; run_handler.
  - destruct throws; by eexists.
  - eexists. by rewrite app_nil_r.
Qed.

(** A signal on a stopped session calls no [start()] and sets no timer. *)
Lemma signal_when_stopped e ev :
  shouldRestart e = false →
  match ev with
  | SignalStarted | SignalEnded _ | SignalError | SignalResult _ => True
  | _ => False
  end →
  ∃ e',
    step window callbacks ev e = Ret tt e'
    ∧ shouldRestart e' = false
    ∧ pending e' = pending e
    ∧ List.filter (λ x, is_restart x || is_timeout x) (log e')
      = List.filter (λ x, is_restart x || is_timeout x) (log e).
Proof.
  destruct e as [[id|] ir sr n p l]; cbn; intros -> Hev;
    destruct ev as [| | |t| |res|]; try done; run_handler;
    try (by eexists).
  - destruct (hasOnStart callbacks); eexists; split_and!; try done.
    cbn. by rewrite List.filter_app, app_nil_r.
  - destruct (hasOnEnd callbacks); eexists; split_and!; try done.
    cbn. by rewrite List.filter_app, app_nil_r.
  - rewrite onresult_handler_spec. eexists; split_and!; try done.
    cbn [log set_log]. rewrite List.filter_app. unfold delivered.
    destruct (truthy (interim_text _)), (truthy (final_text _));
      by rewrite app_nil_r.
Qed.

(** *** Sequences of events *)

(** No step throws: every handler catches what the primitive throws. *)
Lemma step_returns ev e : ∃ e', step window callbacks ev e = Ret tt e'.
Proof.
  destruct e as [[id|] ir sr n p l], ev as [t|t| |t| |res|t]; run_handler;
    try rewrite onresult_handler_spec;
    repeat match goal with
           | |- context [if ?b then _ else _] => destruct b
           | |- context [match ?x with _ => _ end] => destruct x
           end;
    by eexists.
Qed.

Lemma run_returns evs e : ∃ e', run window callbacks evs e = Ret tt e'.
Proof.
  revert e. induction evs as [|ev evs IH]; intros e; [by eexists|].
  destruct (step_returns ev e) as [e1 H1]. cbn [run].
  rewrite (bind_ret_l _ _ _ _ _ H1). apply IH.
Qed.

Lemma run_cons ev evs e e1 :
  step window callbacks ev e = Ret tt e1 →
  run window callbacks (ev :: evs) e = run window callbacks evs e1.
Proof. intros H. cbn [run]. by rewrite (bind_ret_l _ _ _ _ _ H). Qed.

Lemma run_app evs1 evs2 e e1 :
  run window callbacks evs1 e = Ret tt e1 →
  run window callbacks (evs1 ++ evs2) e = run window callbacks evs2 e1.
Proof.
  revert e. induction evs1 as [|ev evs1 IH]; intros e.
  - by intros [= ->].
  - destruct (step_returns ev e) as [e2 H2]. cbn [app].
    rewrite !(run_cons _ _ _ _ H2). apply IH.
Qed.

(** The restart attempts and the timers set, in order. *)
Definition restarts (l : list effect) : list effect :=
  List.filter (λ x, is_restart x || is_timeout x) l.

Definition is_call_start (ev : event) : bool :=
  match ev with CallStart _ => true | _ => false end.

(** A stopped session with no timer pending stays so, and attempts no
    restart, under every event but a call of [start]. *)
Lemma quiet_step ev e :
  shouldRestart e = false →
  pending e = [] →
  is_call_start ev = false →
  ∃ e',
    step window callbacks ev e = Ret tt e'
    ∧ shouldRestart e' = false
    ∧ pending e' = []
    ∧ restarts (log e') = restarts (log e).
Proof.
  intros Hs Hp Hev. destruct ev as [t|t| |t| |res|t]; try done.
  - destruct (stop_spec e t) as (e' & H & _ & Hs' & _ & Hp' & Hl).
    exists e'. split_and!; [done|done|congruence|].
    rewrite Hl. unfold restarts. rewrite List.filter_app.
    destruct (recognition e); by rewrite app_nil_r.
  - destruct (signal_when_stopped e SignalStarted Hs I) as (e' & ? & ? & ? & ?).
    exists e'. split_and!; [done|done|congruence|done].
  - destruct (signal_when_stopped e (SignalEnded t) Hs I) as (e' & ? & ? & ? & ?).
    exists e'. split_and!; [done|done|congruence|done].
  - destruct (signal_when_stopped e SignalError Hs I) as (e' & ? & ? & ? & ?).
    exists e'. split_and!; [done|done|congruence|done].
  - destruct (signal_when_stopped e (SignalResult res) Hs I) as (e' & ? & ? & ? & ?).
    exists e'. split_and!; [done|done|congruence|done].
  - destruct e as [r ir sr n p l]. cbn in Hs, Hp. subst. run_handler.
    by eexists.
Qed.

Lemma quiet_run evs e :
  shouldRestart e = false →
  pending e = [] →
  forallb (λ ev, negb (is_call_start ev)) evs = true →
  ∃ e',
    run window callbacks evs e = Ret tt e'
    ∧ shouldRestart e' = false
    ∧ restarts (log e') = restarts (log e).
Proof.
  revert e. induction evs as [|ev evs IH]; intros e Hs Hp Hevs.
  - by exists e.
  - cbn [forallb] in Hevs. apply andb_true_iff in Hevs as [Hev Hevs].
    apply negb_true_iff in Hev.
    destruct (quiet_step ev e Hs Hp Hev) as (e1 & H1 & Hs1 & Hp1 & Hl1).
    destruct (IH e1 Hs1 Hp1 Hevs) as (e' & H' & Hs' & Hl').
    exists e'. rewrite (run_cons _ _ _ _ H1). split_and!; [done|done|congruence].
Qed.

(** After [stop()], with no restart timer pending, nothing but a call of
    [start] brings a restart attempt: not an [ended] signal, not an
    [error] signal, at any time and in any number. *)
Lemma no_restart_after_stop e throws evs :
  pending e = [] →
  forallb (λ ev, negb (is_call_start ev)) evs = true →
  ∃ e',
    run window callbacks (CallStop throws :: evs) e = Ret tt e'
    ∧ restarts (log e') = restarts (log e).
Proof.
  intros Hp Hevs.
  destruct (stop_spec e throws) as (e1 & H1 & _ & Hs1 & _ & Hp1 & Hl1).
  destruct (quiet_run evs e1 Hs1 ltac:(congruence) Hevs) as (e' & H' & _ & Hl').
  exists e'. rewrite (run_cons (CallStop throws) _ _ _ H1).
  split; [done|]. rewrite Hl', Hl1. unfold restarts.
  rewrite List.filter_app. destruct (recognition e); by rewrite app_nil_r.
Qed.

(** An instance exists only on a browser that has the primitive, and the
    running flag is up only when an instance exists. *)
Definition consistent (e : engine) : Prop :=
  (is_Some (recognition e) → isSupported window = true)
  ∧ (isRunning e = true → is_Some (recognition e)).

Lemma new_engine_consistent : consistent new_engine.
Proof. split; cbn; [by intros [? ?]|done]. Qed.

Lemma step_consistent ev e e' :
  consistent e →
  step window callbacks ev e = Ret tt e' →
  consistent e'.
Proof.
  unfold consistent.
  destruct e as [[id|] ir sr n p l], ev as [t|t| |t| |res|t]; cbn;
    intros [H1 H2]; run_handler;
    try rewrite onresult_handler_spec;
    repeat match goal with
           | |- context [if negb ?b then _ else _] => destruct b eqn:?; cbn [negb]
           | |- context [if ?b then _ else _] => destruct b eqn:?
           | |- context [match ?x with _ => _ end] => destruct x eqn:?
           end;
    intros [= <-]; cbn; split; eauto; try done;
    intros; simplify_eq; eauto;
    by destruct (isSupported window).
Qed.

Lemma run_consistent evs e e' :
  consistent e →
  run window callbacks evs e = Ret tt e' →
  consistent e'.
Proof.
  revert e. induction evs as [|ev evs IH]; intros e He.
  - by intros [= <-].
  - destruct (step_returns ev e) as [e1 H1].
    rewrite (run_cons _ _ _ _ H1). apply IH. by eapply step_consistent.
Qed.

(** The intent to run survives every event but a call of [stop]. *)
Lemma intent_step ev e e' :
  shouldRestart e = true →
  match ev with CallStop _ => False | _ => True end →
  step window callbacks ev e = Ret tt e' →
  shouldRestart e' = true.
Proof.
  destruct e as [[id|] ir sr n p l], ev as [t|t| |t| |res|t]; cbn;
    intros -> Hev; try done; run_handler;
    try rewrite onresult_handler_spec;
    repeat match goal with
           | |- context [if ?b then _ else _] => destruct b
           | |- context [match ?x with _ => _ end] => destruct x
           end;
    by intros [= <-].
Qed.

Lemma intent_run evs e e' :
  shouldRestart e = true →
  forallb (λ ev, match ev with CallStop _ => false | _ => true end) evs = true →
  run window callbacks evs e = Ret tt e' →
  shouldRestart e' = true.
Proof.
  revert e. induction evs as [|ev evs IH]; intros e Hs Hevs.
  - by intros [= <-].
  - cbn [forallb] in Hevs. apply andb_true_iff in Hevs as [Hev Hevs].
    destruct (step_returns ev e) as [e1 H1]. rewrite (run_cons _ _ _ _ H1).
    apply IH; [|done]. eapply intent_step; [done| |done]. by destruct ev.
Qed.

(** Events that cannot raise a flag: everything but a call of [start]
    and a [started] signal. *)
Definition lowers_no_flag (ev : event) : bool :=
  match ev with CallStart _ | SignalStarted => false | _ => true end.

Lemma stopped_step ev e e' :
  shouldRestart e = false →
  isRunning e = false →
  lowers_no_flag ev = true →
  step window callbacks ev e = Ret tt e' →
  shouldRestart e' = false ∧ isRunning e' = false.
Proof.
  destruct e as [[id|] ir sr n p l], ev as [t|t| |t| |res|t]; cbn;
    intros -> -> Hev; try done; run_handler;
    try rewrite onresult_handler_spec;
    repeat match goal with
           | |- context [if ?b then _ else _] => destruct b
           | |- context [match ?x with _ => _ end] => destruct x
           end;
    by intros [= <-].
Qed.

Lemma stopped_run evs e e' :
  shouldRestart e = false →
  isRunning e = false →
  forallb lowers_no_flag evs = true →
  run window callbacks evs e = Ret tt e' →
  shouldRestart e' = false ∧ isRunning e' = false.
Proof.
  revert e. induction evs as [|ev evs IH]; intros e Hs Hr Hevs.
  - by intros [= <-].
  - cbn [forallb] in Hevs. apply andb_true_iff in Hevs as [Hev Hevs].
    destruct (step_returns ev e) as [e1 H1]. rewrite (run_cons _ _ _ _ H1).
    destruct (stopped_step ev e e1 Hs Hr Hev H1). by apply IH.
Qed.

(** [start()] on a browser with the primitive, from a session that is not
    running: a new instance, the intent flag up, one [start()] of the
    primitive; the running flag waits for the [started] signal. *)
Lemma start_spec e throws :
  isSupported window = true →
  isRunning e = false →
  ∃ e',
    start window callbacks throws e = Ret (negb throws) e'
    ∧ recognition e' = Some (constructed e)
    ∧ shouldRestart e' = true
    ∧ isRunning e' = false.
Proof.
  destruct e as [r ir sr n p l]. cbn. intros Hsup ->.
  run_handler. rewrite Hsup.
  destruct throws; [destruct (hasOnError callbacks)|]; by eexists.
Qed.

Lemma started_spec e id :
  recognition e = Some id →
  ∃ e',
    step window callbacks SignalStarted e = Ret tt e'
    ∧ isRunning e' = true
    ∧ shouldRestart e' = shouldRestart e.
Proof.
  destruct e as [r ir sr n p l]. cbn. intros ->.
  run_handler. destruct (hasOnStart callbacks); by eexists.
Qed.

(** [start()] on a running session: [true], and the engine as it was. *)
Lemma start_running e throws :
  isSupported window = true →
  isRunning e = true →
  start window callbacks throws e = Ret true e.
Proof.
  destruct e as [r ir sr n p l]. cbn. intros Hsup ->.
  run_handler. by rewrite Hsup.
Qed.

End Session.

(** *** The claims *)

Definition chrome : browser :=
  {| hasWindow := true; hasWebkitSpeechRecognition := true;
     hasSpeechRecognition := false |}.

Definition all_callbacks : SpeechRecognitionCallbacks :=
  {| hasOnStart := true; hasOnEnd := true; hasOnError := true |}.

(** A restart timer set by an [error] signal is not cancelled by [stop()]
    and does not look at the flag when it fires. *)
Lemma timer_outlives_stop window callbacks e id throws1 throws2 :
  recognition e = Some id →
  shouldRestart e = true →
  pending e = [] →
  ∃ e',
    run window callbacks [SignalError; CallStop throws1; TimerFires throws2] e
    = Ret tt e'
    ∧ shouldRestart e' = false
    ∧ log e' = log e ++ [TimeoutSet 1000; PrimitiveStop id;
                         PrimitiveStart ByErrorTimer id].
Proof.
  destruct e as [r ir sr n p l]. cbn. intros -> -> ->.
  destruct throws1, throws2; eexists; (split; [reflexivity|]); cbn;
    by rewrite <- !app_assoc.
Qed.

(** C1.  The code at the input [start(); started; error; stop(); timer]:
    the [error] signal sets a 1000 ms timer while the session means to
    run; [stop()] lowers the flag and stops the primitive but leaves the
    timer; the timer fires after the stop and calls the primitive's
    [start()] again.  The last effect is a restart attempt on a session
    whose [shouldRestart] is false, against the claim that none occurs
    after [stop()]. *)
Theorem restart_attempt_after_stop :
  ∃ e,
    run chrome all_callbacks
        [CallStart false; SignalStarted; SignalError; CallStop false;
         TimerFires false] new_engine = Ret tt e
    ∧ shouldRestart e = false
    ∧ log e = [Constructed 0; PrimitiveStart ByStart 0; Called onStart;
               TimeoutSet 1000; PrimitiveStop 0;
               PrimitiveStart ByErrorTimer 0]
    ∧ restarts (drop 5 (log e)) = [PrimitiveStart ByErrorTimer 0].
Proof. eexists. split; [reflexivity|]. by cbn. Qed.

(** C9.  [getIsRunning] is [true] exactly when the running flag or the
    intent flag is up.  The running flag follows the primitive (up at
    [started], down at [ended]); the intent flag goes up in [start()]
    before the primitive has started and stays up through every event but
    [stop()], so the query answers [true] while a start is pending and
    from an [ended] signal to the re-start and beyond.  After [stop()]
    the query answers [false], and keeps doing so until [start()] is
    called or the primitive reports [started]. *)
Theorem liveness_query window callbacks :
  (∀ e, getIsRunning e = true ↔ isRunning e = true ∨ shouldRestart e = true)
  ∧ (∀ e throws, isSupported window = true → isRunning e = false →
       ∃ r e', start window callbacks throws e = Ret r e'
               ∧ isRunning e' = false ∧ getIsRunning e' = true)
  ∧ (∀ e id, recognition e = Some id →
       ∃ e', step window callbacks SignalStarted e = Ret tt e'
             ∧ isRunning e' = true ∧ getIsRunning e' = true)
  ∧ (∀ e id throws, recognition e = Some id → shouldRestart e = true →
       ∃ e', step window callbacks (SignalEnded throws) e = Ret tt e'
             ∧ isRunning e' = false ∧ getIsRunning e' = true)
  ∧ (∀ e evs e', shouldRestart e = true →
       forallb (λ ev, match ev with CallStop _ => false | _ => true end) evs
       = true →
       run window callbacks evs e = Ret tt e' → getIsRunning e' = true)
  ∧ (∀ e throws, ∃ e', stop throws e = Ret tt e' ∧ getIsRunning e' = false)
  ∧ (∀ e throws evs, forallb lowers_no_flag evs = true →
       ∃ e', run window callbacks (CallStop throws :: evs) e = Ret tt e'
             ∧ getIsRunning e' = false).
Proof.
  unfold getIsRunning. split_and!.
  - intros e. by rewrite orb_true_iff.
  - intros e throws Hsup Hrun.
    destruct (start_spec window callbacks e throws Hsup Hrun)
      as (e' & H & _ & Hs & Hr).
    exists (negb throws), e'. by rewrite Hs, Hr.
  - intros e id Hrec.
    destruct (started_spec window callbacks e id Hrec) as (e' & H & Hr & _).
    exists e'. by rewrite Hr.
  - intros e id throws Hrec Hs.
    destruct (ended_restarts_once window callbacks e id throws Hrec Hs)
      as (e' & H & _ & _ & Hr & Hs' & _).
    exists e'. by rewrite Hr, Hs'.
  - intros e evs e' Hs Hevs Hrun.
    rewrite (intent_run window callbacks evs e e' Hs Hevs Hrun).
    apply orb_true_r.
  - intros e throws.
    destruct (stop_spec e throws) as (e' & H & Hr & Hs & _).
    exists e'. by rewrite Hr, Hs.
  - intros e throws evs Hevs.
    destruct (stop_spec e throws) as (e1 & H1 & Hr1 & Hs1 & _).
    destruct (run_returns window callbacks evs e1) as [e' H'].
    exists e'. rewrite (run_cons _ _ (CallStop throws) _ _ _ H1).
    split; [done|].
    by destruct (stopped_run window callbacks evs e1 e' Hs1 Hr1 Hevs H')
      as [-> ->].
Qed.

(** C10.  On a session that events have brought to running, [start()]
    returns [true] and leaves the engine as it was: no new instance, no
    handler set, no field changed, no effect on the primitive or the
    client. *)
Theorem start_when_running window callbacks evs e throws :
  run window callbacks evs new_engine = Ret tt e →
  isRunning e = true →
  start window callbacks throws e = Ret true e.
Proof.
  intros Hrun Hr. apply start_running; [|done].
  destruct (run_consistent window callbacks evs new_engine e
              (new_engine_consistent window) Hrun) as [H1 H2].
  auto.
Qed.

Lemma start_when_running_witness :
  ∃ e,
    run chrome all_callbacks [CallStart false; SignalStarted] new_engine
    = Ret tt e
    ∧ isRunning e = true
    ∧ start chrome all_callbacks false e = Ret true e.
Proof.
  eexists. split; [reflexivity|]. split; [reflexivity|].
  exact (start_when_running chrome all_callbacks
           [CallStart false; SignalStarted] _ false eq_refl eq_refl).
Defined.

End RecognitionFacts.

(** ** The audio capture engine *)

Module CaptureFacts.
Import Capture.

(** Runs the engine's methods on an engine given by its fields. *)
Ltac run_engine :=
  cbv [recorder_at recorder_start recorder_stop oscillator_stop release
       notifyStateChange getState emit emit_all present
       try_catch when mbind Eff_bind eff_bind modify gets get throw await
       mret Eff_ret eff_ret
       update default from_option id negb andb orb
       set_micStream set_systemStream set_recorders set_recorderChunks
       set_activeRecorderIndex set_switchInterval set_audioContext
       set_sourceNode set_inputGainNode set_destinationNode
       set_keepAliveOscillator set_analyserNode set_log
       micStream systemStream recorders recorderChunks activeRecorderIndex
       switchInterval audioContext sourceNode inputGainNode destinationNode
       keepAliveOscillator analyserNode onChunkCallback onStateChange log] in *.

(** *** Stopping the recorders *)

(** A recorder after [forEach] has passed it. *)
Definition deactivated (r : MediaRecorder) : MediaRecorder :=
  if is_inactive r then r else with_state Inactive (rec_timeslice r) r.

(** The [stop()] calls [forEach] makes. *)
Definition stops (rs : list MediaRecorder) : list effect :=
  map (λ r, RecorderStopped (rec_role r))
      (List.filter (λ r, negb (is_inactive r)) rs).

Lemma deactivated_inactive r : is_inactive (deactivated r) = true.
Proof. unfold deactivated. by destruct (is_inactive r) eqn:H. Qed.

Lemma stop_recorders_spec rs : ∀ pre e,
  recorders e = pre ++ rs →
  stop_recorders rs (length pre) e
  = Ret tt (set_log (log e ++ stops rs)
             (set_recorders (pre ++ map deactivated rs) e)).
Proof.
  induction rs as [|r rs IH]; intros pre e Hrs.
  - destruct e. cbn in *. subst. run_engine. by rewrite !app_nil_r.
  - cbn [stop_recorders].
    assert (Hlook : recorders e !! length pre = Some r).
    { rewrite Hrs. by rewrite list_lookup_middle. }
    assert (Hnext : ∀ e1 r1,
      recorders e1 = pre ++ r1 :: rs →
      stop_recorders rs (S (length pre)) e1
      = Ret tt (set_log (log e1 ++ stops rs)
                 (set_recorders ((pre ++ [r1]) ++ map deactivated rs) e1))).
    { intros e1 r1 H1. replace (S (length pre)) with (length (pre ++ [r1])).
      - apply IH. by rewrite <- app_assoc.
      - rewrite length_app. cbn. lia. }
    unfold stops, deactivated. cbn [List.filter map].
    destruct (is_inactive r) eqn:Hr; cbn [negb when].
    + rewrite (bind_ret_l _ _ _ tt e) by done.
      rewrite (Hnext e r Hrs). destruct e. cbn in *.
      by rewrite <- app_assoc.
    + assert (Hstop : recorder_stop (length pre) e
        = Ret tt (set_log (log e ++ [RecorderStopped (rec_role r)])
                   (set_recorders
                      (pre ++ with_state Inactive (rec_timeslice r) r :: rs) e))).
      { destruct e. cbn in *. run_engine. rewrite Hlook, Hr. subst.
        by rewrite insert_app_r_alt, Nat.sub_diag. }
      rewrite (bind_ret_l _ _ _ _ _ Hstop).
      rewrite (Hnext _ (with_state Inactive (rec_timeslice r) r)).
      * destruct e. cbn. by rewrite <- !app_assoc.
      * by destruct e.
Qed.

Lemma stop_recorders_all rs e :
  recorders e = rs →
  stop_recorders rs 0 e
  = Ret tt (set_log (log e ++ stops rs) (set_recorders (map deactivated rs) e)).
Proof. intros H. by apply (stop_recorders_spec rs []). Qed.

(** *** Stopping the other channel *)

(** What [stopSystemAudio] does to the platform, in order: the timer, the
    recorders, the oscillator, the source, gain and analyser nodes, the
    tracks of the captured stream. *)
Definition teardown (e : engine) : list effect :=
  (if present (switchInterval e) then [IntervalCleared] else [])
  ++ stops (recorders e)
  ++ match keepAliveOscillator e with
     | Some o =>
       (if osc_started o then [OscillatorStopped] else [])
       ++ [Disconnected KeepAliveOscillator]
     | None => []
     end
  ++ match sourceNode e with Some n => [Disconnected n] | None => [] end
  ++ match inputGainNode e with Some n => [Disconnected n] | None => [] end
  ++ match analyserNode e with Some n => [Disconnected n] | None => [] end
  ++ match systemStream e with
     | Some s => map (λ t, TrackStopped (track_id t)) s
     | None => []
     end.

(** The engine [stopSystemAudio] leaves: the microphone, the audio
    context, the rotation index and the callbacks as they were, every
    other field reset. *)
Definition torn_down (e : engine) : engine :=
  {| micStream := micStream e; systemStream := None;
     recorders := []; recorderChunks := [[]; []];
     activeRecorderIndex := activeRecorderIndex e; switchInterval := None;
     audioContext := audioContext e; sourceNode := None;
     inputGainNode := None; destinationNode := None;
     keepAliveOscillator := None; analyserNode := None;
     onChunkCallback := onChunkCallback e; onStateChange := onStateChange e;
     log := log e ++ teardown e
            ++ if onStateChange e
               then [StateChanged
                       {| micActive := micActive (getState e);
                          systemAudioActive := false |}]
               else [] |}.

Lemma stopSystemAudio_spec e : stopSystemAudio e = Ret tt (torn_down e).
Proof.
  destruct e as [mic sys rs chunks idx timer ctx src gain dst osc ana cb sc l].
  unfold stopSystemAudio, torn_down, teardown.
  destruct timer as [t|]; run_engine;
    rewrite stop_recorders_all by reflexivity; run_engine; cbn [app].
  all: destruct osc as [[[] ?]|], src, dst, gain, ana, sys, sc; cbn [osc_started];
    rewrite <- ?app_assoc, ?app_nil_r; cbn [app]; try reflexivity.
Qed.

(** Nothing of an other-channel session is left in the engine. *)
Definition released (e : engine) : Prop :=
  systemStream e = None
  ∧ switchInterval e = None
  ∧ recorders e = []
  ∧ recorderChunks e = [[]; []]
  ∧ keepAliveOscillator e = None
  ∧ sourceNode e = None
  ∧ inputGainNode e = None
  ∧ analyserNode e = None
  ∧ destinationNode e = None.

Lemma torn_down_released e : released (torn_down e).
Proof. by repeat split. Qed.

Lemma teardown_released e : released e → teardown e = [].
Proof.
  destruct e. unfold released, teardown. cbn.
  by intros (-> & -> & -> & _ & -> & -> & -> & -> & _).
Qed.

Lemma stops_complete rs r :
  r ∈ rs → is_inactive r = false → RecorderStopped (rec_role r) ∈ stops rs.
Proof.
  intros Hin Hr. unfold stops. apply list_elem_of_In, in_map_iff.
  exists r. split; [done|]. apply filter_In. split.
  - by apply list_elem_of_In.
  - by rewrite Hr.
Qed.

(** Finds an effect in a log written as a concatenation. *)
Ltac find_effect :=
  apply list_elem_of_In; rewrite ?in_app_iff; cbn; auto 20.

(** The teardown reaches the timer, every recorder still active, the
    oscillator (stopped, then disconnected), the three connected nodes and
    every track of the captured stream. *)
Lemma teardown_complete e :
  (present (switchInterval e) = true → IntervalCleared ∈ teardown e)
  ∧ (∀ r, r ∈ recorders e → is_inactive r = false →
          RecorderStopped (rec_role r) ∈ teardown e)
  ∧ (∀ o, keepAliveOscillator e = Some o →
          Disconnected KeepAliveOscillator ∈ teardown e
          ∧ (osc_started o = true → OscillatorStopped ∈ teardown e))
  ∧ (∀ n, sourceNode e = Some n → Disconnected n ∈ teardown e)
  ∧ (∀ n, inputGainNode e = Some n → Disconnected n ∈ teardown e)
  ∧ (∀ n, analyserNode e = Some n → Disconnected n ∈ teardown e)
  ∧ (∀ s t, systemStream e = Some s → t ∈ s →
            TrackStopped (track_id t) ∈ teardown e).
Proof.
  unfold teardown. split_and!.
  - intros ->. find_effect.
  - intros r Hin Hr. apply (stops_complete _ _ Hin), list_elem_of_In in Hr.
    find_effect.
  - intros o ->. split; [find_effect|]. intros ->. find_effect.
  - intros n ->. find_effect.
  - intros n ->. find_effect.
  - intros n ->. find_effect.
  - intros s t -> Hin.
    assert (In (TrackStopped (track_id t))
               (map (λ t, TrackStopped (track_id t)) s)).
    { apply (in_map (λ t, TrackStopped (track_id t))). by apply list_elem_of_In. }
    find_effect.
Qed.

Lemma stops_no_construction rs : List.filter is_construction (stops rs) = [].
Proof.
  unfold stops. induction rs as [|r rs IH]; [done|]. cbn [List.filter].
  by destruct (is_inactive r).
Qed.

Lemma teardown_no_construction e :
  List.filter is_construction (teardown e) = [].
Proof.
  unfold teardown. rewrite !List.filter_app, stops_no_construction.
  destruct (switchInterval e), (keepAliveOscillator e) as [[[] ?]|],
    (sourceNode e), (inputGainNode e), (analyserNode e); cbn;
    (destruct (systemStream e) as [s|]; [|done]);
    induction s; by cbn.
Qed.

(** The segment a recorder's [stop] event assembles from its buffer. *)
Definition segment (chunks : list Blob) : Blob :=
  new_Blob chunks "audio/webm;codecs=opus".

Lemma onstop_spec e index now chunks :
  recorderChunks e !! slot_index index = Some chunks →
  onstop index now e
  = Ret tt (set_log
              (log e ++
               if bool_decide (0 < blob_size (segment chunks))%nat
                  && onChunkCallback e
               then [ChunkDelivered {| blob := segment chunks; timestamp := now |}]
               else [])
              (set_recorderChunks (<[slot_index index := []]> (recorderChunks e)) e)).
Proof.
  destruct e as [mic sys rs chunks0 idx timer ctx src gain dst osc ana cb sc l].
  cbn [recorderChunks]. intros H. unfold onstop, segment. run_engine.
  rewrite H. cbn [default from_option id].
  destruct (bool_decide _); cbn [andb]; [destruct cb|];
    run_engine; by rewrite ?app_nil_r.
Qed.

Lemma ondataavailable_spec e index data chunks :
  recorderChunks e !! slot_index index = Some chunks →
  ondataavailable index data e
  = Ret tt (if bool_decide (0 < blob_size data)%nat
            then set_recorderChunks
                   (<[slot_index index := chunks ++ [data]]> (recorderChunks e)) e
            else e).
Proof.
  destruct e as [mic sys rs chunks0 idx timer ctx src gain dst osc ana cb sc l].
  cbn [recorderChunks]. intros H. unfold ondataavailable. run_engine.
  destruct (bool_decide _); run_engine; [|done]. by rewrite H.
Qed.

(** The events of a recorder stopped by [stopSystemAudio] arrive after
    the call.  They find the fresh buffers, and leave them empty again. *)
Lemma late_events_leave_no_data e index data now :
  recorderChunks e = [[]; []] →
  ∃ e',
    (ondataavailable index data;; onstop index now) e = Ret tt e'
    ∧ recorderChunks e' = [[]; []]
    ∧ recorders e' = recorders e
    ∧ switchInterval e' = switchInterval e.
Proof.
  intros Hc.
  assert (Hlook : recorderChunks e !! slot_index index = Some [])
    by (rewrite Hc; by destruct index).
  rewrite (bind_ret_l _ _ _ _ _ (ondataavailable_spec e index data [] Hlook)).
  destruct (bool_decide (0 < blob_size data)%nat).
  - rewrite (onstop_spec _ index now [data]).
    + eexists. split; [done|]. destruct e. cbn in *. subst.
      by destruct index.
    + destruct e. cbn in *. subst. by destruct index.
  - rewrite (onstop_spec _ index now [] Hlook).
    eexists. split; [done|]. destruct e. cbn in *. subst.
    by destruct index.
Qed.

(** C8.  [stopSystemAudio] returns from every engine, started or not, and
    returns again when called a second time.  After each call the derived
    state reports the other channel inactive, and the timer, both
    recorders, their buffers, the oscillator and the source, gain,
    analyser and destination nodes are gone from the engine.  The first
    call clears the timer, stops every active recorder, stops and
    disconnects the oscillator, disconnects the nodes and stops every
    track; the second finds nothing left and only notifies. *)
Theorem stopSystemAudio_idempotent e :
  ∃ e' e'',
    stopSystemAudio e = Ret tt e'
    ∧ stopSystemAudio e' = Ret tt e''
    ∧ systemAudioActive (getState e') = false
    ∧ systemAudioActive (getState e'') = false
    ∧ released e'
    ∧ released e''
    ∧ (∃ notice, log e' = log e ++ teardown e ++ notice
                 ∧ log e'' = log e' ++ notice
                 ∧ List.filter is_construction notice = [])
    ∧ (present (switchInterval e) = true → IntervalCleared ∈ teardown e)
    ∧ (∀ r, r ∈ recorders e → is_inactive r = false →
            RecorderStopped (rec_role r) ∈ teardown e)
    ∧ (∀ o, keepAliveOscillator e = Some o →
            Disconnected KeepAliveOscillator ∈ teardown e
            ∧ (osc_started o = true → OscillatorStopped ∈ teardown e))
    ∧ (∀ s t, systemStream e = Some s → t ∈ s →
              TrackStopped (track_id t) ∈ teardown e).
Proof.
  exists (torn_down e), (torn_down (torn_down e)).
  rewrite !stopSystemAudio_spec.
  pose proof (teardown_complete e) as (Ht & Hr & Ho & _ & _ & _ & Hs).
  split_and!; try done.
  eexists. split; [reflexivity|].
  cbn [torn_down log onStateChange micStream getState micActive].
  rewrite (teardown_released (torn_down e)) by apply torn_down_released.
  split; [done|]. by destruct (onStateChange e).
Qed.

(** *** Starting on a stream without an audio track *)

Section NoAudioTrack.

Variable fails : callsite → bool.
Variable initialContextState : contextState.
Variable stream : MediaStream.
Hypothesis no_audio : getAudioTracks stream = [].

(** The engine at the point where the stream has been captured and found
    to have no audio track. *)
Definition captured (ctx : contextState) (added : list effect) (e : engine)
  : engine :=
  set_log (log e ++ added
             ++ [DisplayMediaGranted;
                 ConsoleWarned
                   "システム音声トラックが検出されませんでした。「音声を共有」にチェックを入れてください。"])
    (set_systemStream (Some stream) (set_audioContext (Some ctx) e)).

(** The start call when the audio context can be had: it ends in
    [stopSystemAudio] and [false]. *)
Lemma start_no_audio_captured e :
  fails AudioContextCtor = false →
  fails AudioContextResume = false →
  ∃ ctx added,
    startSystemAudio fails (Resolves stream) initialContextState e
    = Ret false (torn_down (captured ctx added e))
    ∧ List.filter is_construction added = [].
Proof.
  intros Hctor Hresume. unfold startSystemAudio, platform.
  destruct e as [mic sys rs chunks idx timer ctx src gain dst osc ana cb sc l].
  destruct ctx as [[| |]|]; run_engine; rewrite ?Hctor, ?Hresume; run_engine;
    try destruct initialContextState; rewrite ?Hresume; run_engine;
    rewrite no_audio; run_engine; rewrite stopSystemAudio_spec;
    unfold captured; run_engine; rewrite <- ?app_assoc; cbn [app].
  all: first
    [ by exists Running, []
    | by exists Closed, []
    | by exists Running, [AudioContextResumed]
    | by exists Running, [AudioContextCreated]
    | by exists Closed, [AudioContextCreated]
    | by exists Running, [AudioContextCreated; AudioContextResumed] ].
Qed.

(** The start call in every case: [false], and nothing built. *)
Lemma start_no_audio_fails e :
  ∃ e' added,
    startSystemAudio fails (Resolves stream) initialContextState e
    = Ret false e'
    ∧ log e' = log e ++ added
    ∧ List.filter is_construction added = [].
Proof.
  destruct (fails AudioContextCtor) eqn:Hctor,
    (fails AudioContextResume) eqn:Hresume.
  4:{ destruct (start_no_audio_captured e Hctor Hresume) as (ctx & added & H & Ha).
      exists (torn_down (captured ctx added e)),
             (added ++ [DisplayMediaGranted; ConsoleWarned
                 "システム音声トラックが検出されませんでした。「音声を共有」にチェックを入れてください。"]
              ++ teardown (captured ctx added e)
              ++ if onStateChange e
                 then [StateChanged
                         {| micActive := micActive (getState e);
                            systemAudioActive := false |}]
                 else []).
      split; [exact H|]. split.
      - destruct e. cbn. by rewrite <- !app_assoc.
      - rewrite !List.filter_app, Ha, teardown_no_construction.
        by destruct (onStateChange e). }
  all: unfold startSystemAudio, platform;
    destruct e as [mic sys rs chunks idx timer ctx src gain dst osc ana cb sc l];
    destruct ctx as [[| |]|]; run_engine; rewrite ?Hctor, ?Hresume; run_engine;
    try destruct initialContextState; rewrite ?Hresume; run_engine;
    rewrite ?no_audio; run_engine; rewrite ?stopSystemAudio_spec;
    unfold torn_down; run_engine;
    eexists _, _; (split; [reflexivity|]); cbn;
    rewrite <- ?app_assoc; (split; [reflexivity|]);
    rewrite ?List.filter_app, ?teardown_no_construction; cbn;
    try done; by destruct sc.
Qed.

End NoAudioTrack.

(** C4.  When the captured stream has no audio track the start call
    returns [false] and builds nothing: no node, no connection, no
    recorder, no timer.  With the stream captured (the audio context could
    be had) every track of the stream is stopped, the stream is dropped,
    and nothing of an other-channel session is left in the engine. *)
Theorem start_without_audio_track fails initialContextState stream e :
  getAudioTracks stream = [] →
  ∃ e' added,
    startSystemAudio fails (Resolves stream) initialContextState e
    = Ret false e'
    ∧ log e' = log e ++ added
    ∧ List.filter is_construction added = []
    ∧ (fails AudioContextCtor = false → fails AudioContextResume = false →
       released e'
       ∧ systemAudioActive (getState e') = false
       ∧ ∀ t, t ∈ stream → TrackStopped (track_id t) ∈ added).
Proof.
  intros Hnone.
  destruct (fails AudioContextCtor) eqn:Hctor;
    [|destruct (fails AudioContextResume) eqn:Hresume].
  1,2: destruct (start_no_audio_fails fails initialContextState stream Hnone e)
         as (e' & added & H & Hl & Ha);
       exists e', added; split_and!; done.
  destruct (start_no_audio_captured fails initialContextState stream Hnone e
              Hctor Hresume) as (ctx & added & H & Ha).
  set (e1 := captured stream ctx added e) in *.
  exists (torn_down e1),
         (added ++ [DisplayMediaGranted; ConsoleWarned
             "システム音声トラックが検出されませんでした。「音声を共有」にチェックを入れてください。"]
          ++ teardown e1
          ++ if onStateChange e
             then [StateChanged
                     {| micActive := micActive (getState e);
                        systemAudioActive := false |}]
             else []).
  split_and!.
  - done.
  - subst e1. destruct e. cbn. by rewrite <- !app_assoc.
  - rewrite !List.filter_app, Ha, teardown_no_construction.
    by destruct (onStateChange e).
  - intros _ _. split_and!; [apply torn_down_released|done|].
    intros t Ht.
    pose proof (teardown_complete e1) as (_ & _ & _ & _ & _ & _ & Hs).
    specialize (Hs stream t). apply list_elem_of_In in Hs; [|by destruct e|done].
    apply list_elem_of_In. rewrite !in_app_iff. auto.
Qed.

(** A shared browser tab whose audio was not shared: one video track. *)
Definition silent_tab : MediaStream :=
  [ {| track_id := DeviceTrack 0; kind := VideoKind;
       enabled := true; live := true |} ].

Lemma start_without_audio_track_witness :
  ∃ e' added,
    startSystemAudio (λ _, false) (Resolves silent_tab) Suspended
                     (new_engine true true)
    = Ret false e'
    ∧ log e' = added
    ∧ List.filter is_construction added = []
    ∧ released e'
    ∧ TrackStopped (DeviceTrack 0) ∈ added.
Proof.
  destruct (start_without_audio_track (λ _, false) Suspended silent_tab
              (new_engine true true) eq_refl)
    as (e' & added & H & Hl & Ha & Hr).
  destruct (Hr eq_refl eq_refl) as (Hrel & _ & Ht).
  exists e', added. split_and!; try done.
  apply (Ht {| track_id := DeviceTrack 0; kind := VideoKind;
               enabled := true; live := true |}).
  apply list_elem_of_here.
Defined.

(** *** The rotation *)


(** A recorder after the tick has started it, if it was idle. *)
Definition activated (r : MediaRecorder) : MediaRecorder :=
  if is_inactive r then with_state Recording None r else r.

(** The two calls of a tick, in order: [start()] on the next recorder when
    it is idle, then [stop()] on the current one when it is not. *)
Definition tick_effects (current next : MediaRecorder) : list effect :=
  (if is_inactive next then [RecorderStarted (rec_role next) None] else [])
  ++ (if is_inactive current then [] else [RecorderStopped (rec_role current)]).

(** A tick while recorder 0 is the current one, and while recorder 1 is. *)
Lemma switchTick_from_0 e r0 r1 :
  recorders e = [r0; r1] →
  activeRecorderIndex e = 0%nat →
  switchTick e
  = Ret tt (set_log (log e ++ tick_effects r0 r1)
             (set_activeRecorderIndex 1%nat
                (set_recorders [deactivated r0; activated r1] e))).
Proof.
  destruct e as [mic sys rs chunks idx timer ctx src gain dst osc ana cb sc l].
  cbn. intros -> ->. unfold switchTick, tick_effects, deactivated, activated.
  run_engine. cbn.
  destruct (is_inactive r1) eqn:H1, (is_inactive r0) eqn:H0;
    repeat (progress (cbn; rewrite ?H0, ?H1));
    by rewrite <- ?app_assoc, ?app_nil_r.
Qed.

Lemma switchTick_from_1 e r0 r1 :
  recorders e = [r0; r1] →
  activeRecorderIndex e = 1%nat →
  switchTick e
  = Ret tt (set_log (log e ++ tick_effects r1 r0)
             (set_activeRecorderIndex 0%nat
                (set_recorders [activated r0; deactivated r1] e))).
Proof.
  destruct e as [mic sys rs chunks idx timer ctx src gain dst osc ana cb sc l].
  cbn. intros -> ->. unfold switchTick, tick_effects, deactivated, activated.
  run_engine. cbn.
  destruct (is_inactive r1) eqn:H1, (is_inactive r0) eqn:H0;
    repeat (progress (cbn; rewrite ?H0, ?H1));
    by rewrite <- ?app_assoc, ?app_nil_r.
Qed.

(** *** Building recorders *)

Section Recorders.

Variable fails : callsite → bool.

(** The platform can build a recorder with the handlers of [r], with the
    MIME type or without. *)
Definition recorder_available (r : role) : bool :=
  negb (fails (RecorderCtorWithMime r)) || negb (fails (RecorderCtorDefault r)).

Definition built (audioStream : MediaStream) (r : role) : MediaRecorder :=
  {| rec_role := r; rec_stream := audioStream;
     rec_mimeType := if fails (RecorderCtorWithMime r) then None
                     else Some "audio/webm;codecs=opus";
     rec_state := Inactive; rec_timeslice := None |}.

Lemma new_MediaRecorder_spec audioStream r e :
  new_MediaRecorder fails audioStream r e
  = if recorder_available r
    then Ret (built audioStream r)
             (set_log (log e ++ [RecorderCreated r
                                   (rec_mimeType (built audioStream r))]) e)
    else Raise NotSupportedError e.
Proof.
  unfold new_MediaRecorder, recorder_available, built, platform.
  destruct e. cbn.
  destruct (fails (RecorderCtorWithMime r)); cbn; [|done].
  by destruct (fails (RecorderCtorDefault r)).
Qed.

(** The platform can run the rotation: the audio-only stream, both
    recorders, and the start of the first. *)
Definition dual_available : bool :=
  negb (fails (MediaStreamCtor (Dual Slot0)))
  && recorder_available (Dual Slot0)
  && recorder_available (Dual Slot1)
  && negb (fails (RecorderStart (Dual Slot0))).


Lemma startDualRecording_spec stream e :
  dual_available = true →
  let r0 := built (getAudioTracks stream) (Dual Slot0) in
  let r1 := built (getAudioTracks stream) (Dual Slot1) in
  startDualRecording fails stream e
  = Ret tt
      (set_switchInterval (Some 3000%nat)
         (set_log (log e ++ [RecorderCreated (Dual Slot0) (rec_mimeType r0);
                             RecorderCreated (Dual Slot1) (rec_mimeType r1);
                             RecorderStarted (Dual Slot0) None;
                             IntervalSet 3000])
            (set_activeRecorderIndex 0%nat
               (set_recorders [with_state Recording None r0; r1] e)))).
Proof.
  unfold dual_available. rewrite !andb_true_iff, !negb_true_iff.
  intros [[[Hs H0] H1] Hstart]. cbv zeta.
  unfold startDualRecording, platform. rewrite Hs, Hstart.
  assert (Hn0 := λ e, new_MediaRecorder_spec (getAudioTracks stream) (Dual Slot0) e).
  assert (Hn1 := λ e, new_MediaRecorder_spec (getAudioTracks stream) (Dual Slot1) e).
  rewrite H0 in Hn0. rewrite H1 in Hn1.
  unfold mbind, Eff_bind, eff_bind, mret, Eff_ret, eff_ret.
  rewrite Hn0, Hn1. destruct e. unfold built. run_engine. cbn.
  by rewrite <- !app_assoc.
Qed.



End Recorders.

(** C5.  The rotation timer is set to 3000 ms with recorder 0 recording.
    On every tick of a pool of two recorders the next recorder is started,
    if and only if it is idle, before the current one is stopped (which
    happens if and only if it is not idle), and the active index becomes
    the other of 0 and 1.  When a recorder's [stop] event runs, the blobs
    of its buffer are concatenated into one segment, its buffer is emptied
    and the other buffer kept, and the segment goes to the chunk callback
    exactly when it has a non-zero size and a callback is set. *)
Theorem double_buffered_rotation e r0 r1 :
  recorders e = [r0; r1] →
  (activeRecorderIndex e < 2)%nat →
  let current := if decide (activeRecorderIndex e = 0%nat) then r0 else r1 in
  let next := if decide (activeRecorderIndex e = 0%nat) then r1 else r0 in
  (∃ e',
     switchTick e = Ret tt e'
     ∧ log e' = log e
         ++ (if is_inactive next
             then [RecorderStarted (rec_role next) None] else [])
         ++ (if is_inactive current
             then [] else [RecorderStopped (rec_role current)])
     ∧ activeRecorderIndex e' = (1 - activeRecorderIndex e)%nat
     ∧ recorders e' = (if decide (activeRecorderIndex e = 0%nat)
                       then [deactivated r0; activated r1]
                       else [activated r0; deactivated r1])
     ∧ recorderChunks e' = recorderChunks e
     ∧ switchInterval e' = switchInterval e)
  ∧ (∀ index now chunks,
       recorderChunks e !! slot_index index = Some chunks →
       ∃ e' delivered,
         onstop index now e = Ret tt e'
         ∧ log e' = log e ++ delivered
         ∧ delivered
           = (if bool_decide (0 < blob_size (segment chunks))%nat
                 && onChunkCallback e
              then [ChunkDelivered {| blob := segment chunks; timestamp := now |}]
              else [])
         ∧ blob_bytes (segment chunks) = concat (map blob_bytes chunks)
         ∧ (∀ c, ChunkDelivered c ∈ delivered → (0 < blob_size (blob c))%nat)
         ∧ recorderChunks e' = <[slot_index index := []]> (recorderChunks e)
         ∧ recorders e' = recorders e
         ∧ activeRecorderIndex e' = activeRecorderIndex e)
  ∧ (∀ fails stream e0,
       dual_available fails = true →
       ∃ e1 a b,
         startDualRecording fails stream e0 = Ret tt e1
         ∧ switchInterval e1 = Some 3000%nat
         ∧ (∃ before, log e1 = before ++ [IntervalSet 3000])
         ∧ activeRecorderIndex e1 = 0%nat
         ∧ recorders e1 = [a; b]
         ∧ rec_state a = Recording
         ∧ rec_state b = Inactive).
Proof.
  intros Hrs Hidx current next. split_and!.
  - destruct (activeRecorderIndex e) as [|[|i]] eqn:Hi; [| |lia];
      subst current next; cbn [decide decide_rel Nat.eq_dec nat_rec nat_rect].
    + rewrite (switchTick_from_0 e r0 r1 Hrs Hi). eexists. split; [done|].
      destruct e. by cbn.
    + rewrite (switchTick_from_1 e r0 r1 Hrs Hi). eexists. split; [done|].
      destruct e. by cbn.
  - intros index now chunks Hc. rewrite (onstop_spec e index now chunks Hc).
    eexists _, _. split; [done|].
    split; [by destruct e|]. split; [done|]. split; [done|].
    split; [|by destruct e].
    intros c Hin.
    destruct (bool_decide (0 < blob_size (segment chunks))%nat) eqn:Hsize;
      cbn [andb] in Hin.
    + apply bool_decide_eq_true in Hsize.
      destruct (onChunkCallback e); [|by apply elem_of_nil in Hin].
      apply list_elem_of_singleton in Hin. by simplify_eq.
    + by apply elem_of_nil in Hin.
  - intros fails stream e0 Hav.
    rewrite (startDualRecording_spec fails stream e0 Hav).
    eexists _, _, _. split; [done|]. destruct e0. cbn.
    split_and!; try done.
    eexists (_ ++ [_; _; _]). by rewrite <- app_assoc.
Qed.

(** A pool in its first interval: recorder 0 recording, recorder 1 idle. *)
Definition rotating : engine :=
  set_switchInterval (Some 3000%nat)
    (set_recorders
       [ {| rec_role := Dual Slot0; rec_stream := mixedStream;
            rec_mimeType := None; rec_state := Recording;
            rec_timeslice := None |};
         {| rec_role := Dual Slot1; rec_stream := mixedStream;
            rec_mimeType := None; rec_state := Inactive;
            rec_timeslice := None |} ]
       (new_engine true true)).

Lemma double_buffered_rotation_witness :
  ∃ e',
    switchTick rotating = Ret tt e'
    ∧ log e' = [RecorderStarted (Dual Slot1) None; RecorderStopped (Dual Slot0)]
    ∧ activeRecorderIndex e' = 1%nat.
Proof.
  destruct (double_buffered_rotation rotating _ _ eq_refl (le_S _ _ (le_n 1)))
    as [(e' & H & Hl & Hi & _) _].
  by exists e'.
Defined.

(** *** The fallback *)

Section Fallback.

Variable fails : callsite → bool.

(** The platform lets every step of the [try] block of [setupAudioMixing]
    through. *)
Definition graph_available : bool :=
  negb (fails CreateMediaStreamSource)
  && negb (fails CreateMediaStreamDestination)
  && negb (fails CreateInputGain)
  && negb (fails CreateAnalyser)
  && negb (fails ConnectSourceToGain)
  && negb (fails ConnectGainToDestination)
  && negb (fails ConnectGainToAnalyser)
  && negb (fails CreateOscillator)
  && negb (fails CreateKeepAliveGain)
  && negb (fails ConnectOscillatorToGain)
  && negb (fails ConnectKeepAliveToDestination)
  && negb (fails OscillatorStart)
  && dual_available fails.

(** Effects that set a recorder or the rotation going. *)
Definition runs (x : effect) : bool :=
  match x with
  | RecorderStarted _ _ | IntervalSet _ => true
  | _ => false
  end.








End Fallback.

(** *** Starting on a stream with an audio track *)

Section WithAudioTrack.

Variable stream : MediaStream.

(** The stream with its video tracks disabled. *)
Definition muted : MediaStream :=
  map (λ t, if is_audio t then t else disabled t) stream.

Lemma muted_audio : getAudioTracks muted = getAudioTracks stream.
Proof.
  unfold muted, getAudioTracks.
  induction stream as [|t s IH]; [done|]. cbn.
  destruct (is_audio t) eqn:Ht; cbn; rewrite ?Ht; [by f_equal|].
  unfold is_audio in *. cbn. destruct (kind t); [done|]. exact IH.
Qed.

End WithAudioTrack.

(** *** The turn after the capture is granted *)

Section Resumed.

Variable fails : callsite → bool.
Variable stream : MediaStream.
Variable firstAudio : MediaStreamTrack.
Variable moreAudio : list MediaStreamTrack.
Hypothesis has_audio : getAudioTracks stream = firstAudio :: moreAudio.

(** The engine at the point where the resumed call calls
    [setupAudioMixing]: as it was found, with the stream and its video
    tracks disabled. *)
Definition granted (e : engine) : engine :=
  set_systemStream (Some (muted stream))
    (set_log (log e ++ [DisplayMediaGranted]
                ++ map (λ t, TrackDisabled (track_id t)) (getVideoTracks stream))
       e).

(** The resumed call up to [setupAudioMixing] and after it. *)
Lemma resumed_with_audio e :
  startSystemAudio_resumed fails (Resolves stream) e
  = match setupAudioMixing fails (muted stream) (granted e) with
    | Ret _ e2 =>
      Ret true
        (set_log (log e2 ++ [OnEndedSet (track_id firstAudio)]
                    ++ if onStateChange e2
                       then [StateChanged (getState e2)] else []) e2)
    | Raise _ e2 =>
      Ret false
        (set_log (log e2 ++ [ConsoleErrored "システム音声キャプチャ失敗:"]) e2)
    end.
Proof.
  unfold startSystemAudio_resumed.
  destruct e as [mic sys rs chunks idx timer ctx src gain dst osc ana cb sc l].
  run_engine. rewrite has_audio. run_engine.
  unfold granted, muted; run_engine; rewrite <- ?app_assoc; cbn [app];
    unfold MediaStream.
  match goal with
  | |- context [setupAudioMixing ?f ?s ?e] =>
    destruct (setupAudioMixing f s e) as [[] e2|? e2]
  end;
    destruct e2 as [? ? ? ? ? ? ? ? ? ? ? ? ? sc2 ?]; run_engine;
    [destruct sc2; run_engine; by rewrite <- ?app_assoc|done].
Qed.

End Resumed.

(** On an engine that holds a context that is not suspended, the run of
    the whole call with nothing in between is the resumed turn. *)
Lemma startSystemAudio_uninterrupted
    fails displayMedia initialContextState ctx e :
  audioContext e = Some ctx →
  ctx ≠ Suspended →
  startSystemAudio fails displayMedia initialContextState e
  = startSystemAudio_resumed fails displayMedia e.
Proof.
  destruct e as [mic sys rs chunks idx timer ctx0 src gain dst osc ana cb sc l].
  cbn. intros -> Hctx. unfold startSystemAudio, startSystemAudio_resumed.
  by destruct ctx.
Qed.



(** A tab shared with its audio: one video and one audio track. *)
Definition shared_tab : MediaStream :=
  [ {| track_id := DeviceTrack 0; kind := VideoKind;
       enabled := true; live := true |};
    {| track_id := DeviceTrack 1; kind := AudioKind;
       enabled := true; live := true |} ].


(** An engine that holds a running audio context. *)
Definition with_context : engine :=
  set_audioContext (Some Running) (new_engine true true).

(** The start call where nothing fails and nothing runs in between: the
    graph, two recorders with the first recording, and the timer. *)
Example start_builds_rotation :
  ∃ e',
    startSystemAudio (λ _, false) (Resolves shared_tab) Suspended
                     (new_engine true true) = Ret true e'
    ∧ switchInterval e' = Some 3000%nat
    ∧ map rec_state (recorders e') = [Recording; Inactive]
    ∧ List.filter runs (log e')
      = [RecorderStarted (Dual Slot0) None; IntervalSet 3000]
    ∧ getState e' = {| micActive := false; systemAudioActive := true |}.
Proof. eexists. by vm_compute. Qed.



End CaptureFacts.

(** ** More of the audio capture engine *)

Module CaptureExtra.
Import Capture CaptureFacts.

(** *** The self channel and [stopAll] *)

(** The fields of the other channel and the audio context. *)
Definition other_channel (e : engine) :=
  (systemStream e, recorders e, recorderChunks e, activeRecorderIndex e,
   switchInterval e,
   (sourceNode e, inputGainNode e, destinationNode e, keepAliveOscillator e,
    analyserNode e)).

(** What [stopMicrophone] tells the platform: [stop()] on every track of
    the microphone stream. *)
Definition mic_teardown (e : engine) : list effect :=
  match micStream e with
  | Some s => map (λ t, TrackStopped (track_id t)) s
  | None => []
  end.

Definition mic_stopped (e : engine) : engine :=
  set_log (log e ++ mic_teardown e
             ++ if onStateChange e
                then [StateChanged
                        {| micActive := false;
                           systemAudioActive := systemAudioActive (getState e) |}]
                else [])
    (set_micStream None e).

Lemma stopMicrophone_spec e : stopMicrophone e = Ret tt (mic_stopped e).
Proof.
  destruct e as [mic sys rs chunks idx timer ctx src gain dst osc ana cb sc l].
  unfold stopMicrophone, mic_stopped, mic_teardown.
  destruct mic as [s|], sc; run_engine; cbn;
    by rewrite <- ?app_assoc, ?app_nil_r.
Qed.

(** X1.  [stopMicrophone] returns from every engine, a second time too.  It
    stops every track of the microphone stream, leaves the self channel
    inactive, and touches nothing of the other channel or of the audio
    context; the second call finds no stream and only notifies. *)
Theorem stopMicrophone_idempotent e :
  ∃ e' e'' notice,
    stopMicrophone e = Ret tt e'
    ∧ stopMicrophone e' = Ret tt e''
    ∧ micStream e' = None
    ∧ micActive (getState e') = false
    ∧ systemAudioActive (getState e') = systemAudioActive (getState e)
    ∧ other_channel e' = other_channel e
    ∧ audioContext e' = audioContext e
    ∧ log e' = log e ++ mic_teardown e ++ notice
    ∧ log e'' = log e' ++ notice
    ∧ (∀ s t, micStream e = Some s → t ∈ s →
              TrackStopped (track_id t) ∈ mic_teardown e)
    ∧ List.filter is_construction (mic_teardown e ++ notice) = [].
Proof.
  exists (mic_stopped e), (mic_stopped (mic_stopped e)),
    (if onStateChange e
     then [StateChanged
             {| micActive := false;
                systemAudioActive := systemAudioActive (getState e) |}]
     else []).
  rewrite !stopMicrophone_spec.
  split; [done|]. split; [done|].
  destruct e as [mic sys rs chunks idx timer ctx src gain dst osc ana cb sc l].
  unfold mic_stopped, mic_teardown, other_channel. cbn.
  split_and!; try done.
  - intros s t [= ->] Hin.
    apply list_elem_of_In, (in_map (λ t, TrackStopped (track_id t))).
    by apply list_elem_of_In.
  - rewrite List.filter_app.
    assert (List.filter is_construction
              match mic with
              | Some s => map (λ t, TrackStopped (track_id t)) s
              | None => []
              end = []) as ->.
    { destruct mic as [s|]; [|done]. induction s; by cbn. }
    by destruct sc.
Qed.

(** What [stopAll] tells the platform about the audio context. *)
Definition context_teardown (e : engine) : list effect :=
  match audioContext e with
  | Some Closed | None => []
  | Some _ => [AudioContextClosed]
  end.

(** X2.  [stopAll] returns from every engine.  Afterwards both channels are
    inactive, nothing of an other-channel session is left, the microphone
    stream is dropped, and the audio context is closed and dropped, unless
    it had been closed already, in which case the engine keeps holding the
    closed context.  Its effects are those of [stopMicrophone], then those
    of [stopSystemAudio], then the closing of the context. *)
Theorem stopAll_spec e :
  ∃ e' notice1 notice2,
    stopAll e = Ret tt e'
    ∧ getState e' = {| micActive := false; systemAudioActive := false |}
    ∧ micStream e' = None
    ∧ released e'
    ∧ audioContext e' = match audioContext e with
                        | Some Closed => Some Closed
                        | _ => None
                        end
    ∧ log e' = log e ++ mic_teardown e ++ notice1 ++ teardown e ++ notice2
               ++ context_teardown e
    ∧ List.filter is_construction
        (mic_teardown e ++ notice1 ++ teardown e ++ notice2
         ++ context_teardown e) = [].
Proof.
  exists (match audioContext e with
          | Some Closed | None => torn_down (mic_stopped e)
          | Some _ =>
            set_audioContext None
              (set_log (log (torn_down (mic_stopped e)) ++ [AudioContextClosed])
                 (torn_down (mic_stopped e)))
          end),
    (if onStateChange e
     then [StateChanged
             {| micActive := false;
                systemAudioActive := systemAudioActive (getState e) |}]
     else []),
    (if onStateChange e
     then [StateChanged {| micActive := false; systemAudioActive := false |}]
     else []).
  assert (Hrun : stopAll e
    = Ret tt (match audioContext e with
              | Some Closed | None => torn_down (mic_stopped e)
              | Some _ =>
                set_audioContext None
                  (set_log (log (torn_down (mic_stopped e)) ++ [AudioContextClosed])
                     (torn_down (mic_stopped e)))
              end)).
  { unfold stopAll.
    rewrite (bind_ret_l _ _ _ _ _ (stopMicrophone_spec e)).
    rewrite (bind_ret_l _ _ _ _ _ (stopSystemAudio_spec (mic_stopped e))).
    destruct e as [mic sys rs chunks idx timer ctx src gain dst osc ana cb sc l].
    by destruct ctx as [[| |]|]. }
  split; [exact Hrun|]. clear Hrun.
  assert (Hmic : List.filter is_construction (mic_teardown e) = []).
  { unfold mic_teardown. destruct (micStream e) as [s|]; [|done].
    induction s; by cbn. }
  assert (Htd : teardown (mic_stopped e) = teardown e) by by destruct e.
  split; [by destruct e as [? ? ? ? ? ? [[| |]|]]|].
  split; [by destruct e as [? ? ? ? ? ? [[| |]|]]|].
  split; [destruct e as [? ? ? ? ? ? [[| |]|]]; by repeat split|].
  split; [by destruct e as [? ? ? ? ? ? [[| |]|]]|].
  split.
  - assert (Hlog : log (torn_down (mic_stopped e))
      = log e ++ mic_teardown e
        ++ (if onStateChange e
            then [StateChanged
                    {| micActive := false;
                       systemAudioActive := systemAudioActive (getState e) |}]
            else [])
        ++ teardown e
        ++ (if onStateChange e
            then [StateChanged {| micActive := false; systemAudioActive := false |}]
            else [])).
    { cbn [torn_down log]. rewrite Htd. destruct e. cbn.
      by rewrite <- !app_assoc. }
    unfold context_teardown.
    destruct (audioContext e) as [[| |]|];
      cbn [log set_log set_audioContext update default from_option id];
      rewrite Hlog, <- ?app_assoc, ?app_nil_r; reflexivity.
  - rewrite !List.filter_app, Hmic, teardown_no_construction.
    unfold context_teardown.
    by destruct (onStateChange e), (audioContext e) as [[| |]|].
Qed.

(** *** Requests the user or the platform declines *)

(** X3.  [startMicrophone] never throws.  It returns [true] exactly when
    [getUserMedia] resolves, and then holds the stream and notifies; when
    [getUserMedia] rejects it returns [false], holds no new stream and
    stops nothing.  Either way the other channel is as it was. *)
Theorem startMicrophone_spec userMedia e :
  ∃ r e' added,
    startMicrophone userMedia e = Ret r e'
    ∧ log e' = log e ++ added
    ∧ other_channel e' = other_channel e
    ∧ audioContext e' = audioContext e
    ∧ List.filter is_construction added = []
    ∧ (∀ s, userMedia = Resolves s →
            r = true ∧ micStream e' = Some s
            ∧ micActive (getState e') = active s)
    ∧ (∀ ex, userMedia = Rejects ex →
             r = false ∧ micStream e' = micStream e
             ∧ added = [ConsoleErrored "マイクアクセス失敗:"]).
Proof.
  destruct e as [mic sys rs chunks idx timer ctx src gain dst osc ana cb sc l].
  unfold startMicrophone, other_channel.
  destruct userMedia as [s|ex]; run_engine; cbn.
  - destruct sc; cbn; eexists _, _, _; (split; [reflexivity|]); cbn;
      rewrite <- ?app_assoc; (split; [reflexivity|]);
      split_and!; try done; by intros ? [= <-].
  - eexists _, _, _. split; [reflexivity|]. cbn.
    split; [reflexivity|]. split_and!; done.
Qed.

Section Declined.

Variable fails : callsite → bool.
Variable initialContextState : contextState.

(** X4.  When the user declines the share request ([getDisplayMedia] rejects)
    the start call returns [false] and the engine holds what it held: the
    stream, the recorders, the timer and the graph of a session that was
    running are untouched, no track is stopped and nothing is built.  Only
    the audio context may have been created or resumed on the way. *)
Theorem start_declined ex e :
  ∃ e' added,
    startSystemAudio fails (Rejects ex) initialContextState e = Ret false e'
    ∧ other_channel e' = other_channel e
    ∧ micStream e' = micStream e
    ∧ getState e' = getState e
    ∧ log e' = log e ++ added
    ∧ List.filter is_construction added = []
    ∧ List.filter (λ x, match x with TrackStopped _ => true | _ => false end)
                  added = [].
Proof.
  destruct e as [mic sys rs chunks idx timer ctx src gain dst osc ana cb sc l].
  unfold startSystemAudio, platform, other_channel.
  destruct ctx as [[| |]|]; run_engine;
    repeat match goal with
           | |- context [if fails ?c then _ else _] =>
             destruct (fails c); run_engine
           | |- context [match initialContextState with _ => _ end] =>
             destruct initialContextState; run_engine
           end;
    cbn; eexists _, _; (split; [reflexivity|]); cbn;
    rewrite <- ?app_assoc; split_and!; done.
Qed.

End Declined.

(** *** The turn after the grant where the platform lets every step through *)

Section Built.

Variable fails : callsite → bool.

(** What building the graph and the rotation tells the platform, in order. *)
Definition graph_effects : list effect :=
  [ NodeCreated SourceNode; NodeCreated Destination; NodeCreated InputGain;
    GainSet InputGain 5000000; NodeCreated Analyser; FftSizeSet 256;
    Connected SourceNode InputGain; Connected InputGain Destination;
    Connected InputGain Analyser;
    NodeCreated KeepAliveOscillator; NodeCreated KeepAliveGain;
    GainSet KeepAliveGain 100;
    Connected KeepAliveOscillator KeepAliveGain;
    Connected KeepAliveGain Destination; OscillatorStarted;
    RecorderCreated (Dual Slot0) (rec_mimeType (built fails mixedStream (Dual Slot0)));
    RecorderCreated (Dual Slot1) (rec_mimeType (built fails mixedStream (Dual Slot1)));
    RecorderStarted (Dual Slot0) None; IntervalSet 3000 ].

(** The engine with the graph and the rotation in place. *)
Definition with_graph (e : engine) : engine :=
  {| micStream := micStream e; systemStream := systemStream e;
     recorders := [ with_state Recording None (built fails mixedStream (Dual Slot0));
                    built fails mixedStream (Dual Slot1) ];
     recorderChunks := recorderChunks e;
     activeRecorderIndex := 0%nat; switchInterval := Some 3000%nat;
     audioContext := audioContext e;
     sourceNode := Some SourceNode; inputGainNode := Some InputGain;
     destinationNode := Some Destination;
     keepAliveOscillator := Some {| osc_started := true; osc_stopped := false |};
     analyserNode := Some Analyser;
     onChunkCallback := onChunkCallback e; onStateChange := onStateChange e;
     log := log e ++ graph_effects |}.

Lemma buildMixGraph_spec e :
  graph_available fails = true →
  buildMixGraph fails e = Ret tt (with_graph e).
Proof.
  unfold graph_available. rewrite !andb_true_iff, !negb_true_iff.
  intros [[[[[[[[[[[[H1 H2] H3] H4] H5] H6] H7] H8] H9] H10] H11] H12] Hdual].
  unfold buildMixGraph, create, connect, platform.
  rewrite H1, H2, H3, H4, H5, H6, H7, H8, H9, H10, H11, H12.
  destruct e as [mic sys rs chunks idx timer ctx src gain dst osc ana cb sc l].
  run_engine.
  rewrite (startDualRecording_spec fails mixedStream _ Hdual).
  unfold with_graph, graph_effects. cbn.
  by rewrite <- !app_assoc.
Qed.

Lemma setupAudioMixing_spec stream e :
  present (audioContext e) = true →
  graph_available fails = true →
  setupAudioMixing fails stream e = Ret tt (with_graph e).
Proof.
  intros Hctx Hgraph. unfold setupAudioMixing, try_catch.
  unfold mbind, Eff_bind, eff_bind, gets. rewrite Hctx. cbn [negb].
  by rewrite (buildMixGraph_spec e Hgraph).
Qed.

End Built.

Lemma muted_video stream :
  Forall (λ t, enabled t = false) (getVideoTracks (muted stream)).
Proof.
  unfold muted, getVideoTracks.
  induction stream as [|t s IH]; [by constructor|]. cbn.
  destruct (is_audio t) eqn:Ht; cbn; rewrite ?Ht; cbn; [exact IH|].
  unfold is_audio in *. cbn. destruct (kind t); [done|]. cbn.
  by constructor.
Qed.

(** [setupAudioMixing] on an engine that holds no audio context returns
    at its first line. *)
Lemma setupAudioMixing_without_context fails stream e :
  audioContext e = None →
  setupAudioMixing fails stream e = Ret tt e.
Proof.
  intros H. unfold setupAudioMixing, mbind, Eff_bind, eff_bind, gets.
  by rewrite H.
Qed.

(** What the resumed call tells the client last. *)
Definition start_notice (stream : MediaStream) (e : engine) : list effect :=
  if onStateChange e
  then [StateChanged {| micActive := micActive (getState e);
                        systemAudioActive := active (muted stream) |}]
  else [].

(** The engine the resumed call leaves when every step went through. *)
Definition started (fails : callsite → bool) (stream : MediaStream)
    (firstAudio : MediaStreamTrack) (e : engine) : engine :=
  set_log
    (log (with_graph fails (granted stream e))
       ++ [OnEndedSet (track_id firstAudio)] ++ start_notice stream e)
    (with_graph fails (granted stream e)).

Lemma resumed_graph_run fails stream firstAudio moreAudio e :
  getAudioTracks stream = firstAudio :: moreAudio →
  present (audioContext e) = true →
  graph_available fails = true →
  startSystemAudio_resumed fails (Resolves stream) e
  = Ret true (started fails stream firstAudio e).
Proof.
  intros Haudio Hheld Hgraph.
  rewrite (resumed_with_audio fails stream firstAudio moreAudio Haudio e).
  assert (Hctx : present (audioContext (granted stream e)) = true)
    by by destruct e.
  rewrite (setupAudioMixing_spec fails (muted stream) _ Hctx Hgraph).
  unfold started, start_notice. by destruct e.
Qed.

Lemma muted_ids stream : map track_id (muted stream) = map track_id stream.
Proof.
  unfold muted. induction stream as [|t s IH]; [done|]. cbn.
  rewrite IH. by destruct (is_audio t).
Qed.

(** X5.  The turn of the start call that runs when the capture is granted
    with a stream that has an audio track, on the engine as it is at that
    moment.  When the engine holds an audio context and every step of the
    graph and of the rotation is let through, the call returns [true];
    the engine then holds the stream with its video tracks disabled and
    no track stopped, the source, gain, analyser and destination nodes,
    the started oscillator, two recorders on the graph's output stream
    (not on the raw tracks) of which the first alone records, and the
    3000 ms timer; the [ended] handler is set on the first audio track
    and the state is notified last.  When the engine holds no audio
    context at that moment (a [stopAll] ran while the picker was open),
    the call returns [true] as well, holding the stream, but builds no
    node, no recorder and no timer. *)
Theorem start_builds_graph fails stream firstAudio moreAudio e :
  getAudioTracks stream = firstAudio :: moreAudio →
  (present (audioContext e) = true →
   graph_available fails = true →
   ∃ e',
     startSystemAudio_resumed fails (Resolves stream) e = Ret true e'
     ∧ systemStream e' = Some (muted stream)
     ∧ getAudioTracks (muted stream) = getAudioTracks stream
     ∧ Forall (λ t, enabled t = false) (getVideoTracks (muted stream))
     ∧ map rec_state (recorders e') = [Recording; Inactive]
     ∧ map rec_stream (recorders e') = [mixedStream; mixedStream]
     ∧ map rec_role (recorders e') = [Dual Slot0; Dual Slot1]
     ∧ activeRecorderIndex e' = 0%nat
     ∧ switchInterval e' = Some 3000%nat
     ∧ (sourceNode e', inputGainNode e', analyserNode e', destinationNode e')
       = (Some SourceNode, Some InputGain, Some Analyser, Some Destination)
     ∧ keepAliveOscillator e'
       = Some {| osc_started := true; osc_stopped := false |}
     ∧ micStream e' = micStream e
     ∧ audioContext e' = audioContext e
     ∧ log e' = log e ++ [DisplayMediaGranted]
                ++ map (λ t, TrackDisabled (track_id t)) (getVideoTracks stream)
                ++ graph_effects fails
                ++ [OnEndedSet (track_id firstAudio)]
                ++ start_notice stream e)
  ∧ (audioContext e = None →
     ∃ e',
       startSystemAudio_resumed fails (Resolves stream) e = Ret true e'
       ∧ systemStream e' = Some (muted stream)
       ∧ systemAudioActive (getState e') = active (muted stream)
       ∧ audioContext e' = None
       ∧ recorders e' = recorders e
       ∧ switchInterval e' = switchInterval e
       ∧ (sourceNode e', inputGainNode e', analyserNode e', destinationNode e',
          keepAliveOscillator e')
         = (sourceNode e, inputGainNode e, analyserNode e, destinationNode e,
            keepAliveOscillator e)
       ∧ log e' = log e ++ [DisplayMediaGranted]
                  ++ map (λ t, TrackDisabled (track_id t)) (getVideoTracks stream)
                  ++ [OnEndedSet (track_id firstAudio)]
                  ++ start_notice stream e).
Proof.
  intros Haudio. split.
  - intros Hheld Hgraph.
    rewrite (resumed_graph_run fails stream firstAudio moreAudio e
               Haudio Hheld Hgraph).
    exists (started fails stream firstAudio e).
    split; [done|].
    split; [by destruct e|].
    split; [apply muted_audio|].
    split; [apply muted_video|].
    destruct e as [mic sys rs chunks idx timer ctx0 src gain dst osc ana cb sc l].
    cbn. split_and!; try done.
    by rewrite <- !app_assoc.
  - intros Hnone.
    rewrite (resumed_with_audio fails stream firstAudio moreAudio Haudio e).
    rewrite setupAudioMixing_without_context by by destruct e.
    eexists. split; [reflexivity|].
    destruct e as [mic sys rs chunks idx timer ctx0 src gain dst osc ana cb sc l].
    cbn in Hnone. subst ctx0. unfold start_notice. cbn.
    split_and!; try done.
    destruct sc; cbn; by rewrite <- !app_assoc.
Qed.

Lemma start_builds_graph_witness :
  ∃ e',
    startSystemAudio_resumed (λ _, false) (Resolves shared_tab) with_context
    = Ret true e'
    ∧ map rec_state (recorders e') = [Recording; Inactive]
    ∧ switchInterval e' = Some 3000%nat.
Proof.
  destruct (start_builds_graph (λ _, false) shared_tab _ _ with_context eq_refl)
    as [Hbuilt _].
  destruct (Hbuilt eq_refl eq_refl)
    as (e' & H & _ & _ & _ & Hs & _ & _ & _ & Ht & _).
  by exists e'.
Defined.

(** X6.  A start that built the graph and the rotation, stopped at once.
    When the capture is granted with a stream that has an audio track,
    the engine holds an audio context at that moment and every step of
    the graph and of the rotation is let through, the stop call that
    follows clears the timer, stops the one recorder that records (the
    idle one is not stopped), stops and disconnects the oscillator,
    disconnects the source, gain and analyser nodes and stops every track
    of the captured stream, in this order.  Nothing of the session is
    left in the engine; the audio context is kept, not closed, and the
    microphone stream is as it was when the capture was granted. *)
Theorem start_then_stop fails stream firstAudio moreAudio e :
  getAudioTracks stream = firstAudio :: moreAudio →
  present (audioContext e) = true →
  graph_available fails = true →
  ∃ e' e'' notice,
    startSystemAudio_resumed fails (Resolves stream) e = Ret true e'
    ∧ stopSystemAudio e' = Ret tt e''
    ∧ released e''
    ∧ systemAudioActive (getState e'') = false
    ∧ micStream e'' = micStream e
    ∧ audioContext e'' = audioContext e
    ∧ present (audioContext e'') = true
    ∧ log e'' = log e'
                ++ [ IntervalCleared; RecorderStopped (Dual Slot0);
                     OscillatorStopped; Disconnected KeepAliveOscillator;
                     Disconnected SourceNode; Disconnected InputGain;
                     Disconnected Analyser ]
                ++ map TrackStopped (map track_id stream)
                ++ notice
    ∧ List.filter (λ x, match x with StateChanged _ => false | _ => true end)
                  notice = [].
Proof.
  intros Haudio Hheld Hgraph.
  rewrite (resumed_graph_run fails stream firstAudio moreAudio e
             Haudio Hheld Hgraph).
  exists (started fails stream firstAudio e),
         (torn_down (started fails stream firstAudio e)),
         (if onStateChange e
          then [StateChanged {| micActive := micActive (getState e);
                                systemAudioActive := false |}]
          else []).
  split; [done|].
  split; [apply stopSystemAudio_spec|].
  split; [apply torn_down_released|].
  rewrite <- (muted_ids stream), map_map.
  destruct e as [mic sys rs chunks idx timer ctx0 src gain dst osc ana cb sc l].
  cbn in Hheld. cbn. split_and!; try done.
  by destruct sc.
Qed.

Lemma start_then_stop_witness :
  ∃ e' e'',
    startSystemAudio_resumed (λ _, false) (Resolves shared_tab) with_context
    = Ret true e'
    ∧ stopSystemAudio e' = Ret tt e''
    ∧ released e''.
Proof.
  destruct (start_then_stop (λ _, false) shared_tab _ _ with_context
              eq_refl eq_refl eq_refl)
    as (e' & e'' & notice & H1 & H2 & H3 & _).
  by exists e', e''.
Defined.

(** *** The rotation under the events of a session *)

(** What reaches the pool while a session runs: the 3000 ms timer, and
    the [dataavailable] and [stop] events of the two recorders. *)
Inductive signal :=
| Tick
| DataAvailable (index : slot) (data : Blob)
| RecorderStopped_event (index : slot) (now : nat).

Definition handle (s : signal) : Eff engine unit :=
  match s with
  | Tick => switchTick
  | DataAvailable index data => ondataavailable index data
  | RecorderStopped_event index now => onstop index now
  end.

Fixpoint handle_all (ss : list signal) : Eff engine unit :=
  match ss with
  | [] => mret tt
  | s :: ss' => handle s;; handle_all ss'
  end.

(** Two buffers, two recorders, and of the two recorders exactly the one
    at the active index is not idle. *)
Definition pool_ok (e : engine) : bool :=
  bool_decide (length (recorderChunks e) = 2%nat)
  && match recorders e, activeRecorderIndex e with
     | [r0; r1], 0%nat => negb (is_inactive r0) && is_inactive r1
     | [r0; r1], 1%nat => is_inactive r0 && negb (is_inactive r1)
     | _, _ => false
     end.

Definition ticks (ss : list signal) : nat :=
  length (List.filter (λ s, match s with Tick => true | _ => false end) ss).

Definition is_recorder_start (x : effect) : bool :=
  match x with RecorderStarted _ _ => true | _ => false end.

Definition is_recorder_stop (x : effect) : bool :=
  match x with RecorderStopped _ => true | _ => false end.

(** Bytes handed to the chunk callback, bytes waiting in the buffers and
    bytes the recorders report. *)
Definition delivered_size (l : list effect) : nat :=
  sum_list_with
    (λ x, match x with ChunkDelivered c => blob_size (blob c) | _ => 0%nat end) l.

Definition buffered_size (e : engine) : nat :=
  sum_list_with (sum_list_with blob_size) (recorderChunks e).

Definition reported_size (ss : list signal) : nat :=
  sum_list_with
    (λ s, match s with DataAvailable _ data => blob_size data | _ => 0%nat end) ss.

(** What the events of the pool may do: start a recorder without a
    timeslice, stop one, and deliver a segment that is not empty. *)
Definition pool_effect (x : effect) : Prop :=
  match x with
  | RecorderStarted _ None | RecorderStopped _ => True
  | ChunkDelivered c =>
    (0 < blob_size (blob c))%nat ∧ blob_type (blob c) = "audio/webm;codecs=opus"
  | _ => False
  end.

(** The fields no event of the pool touches. *)
Definition outside_pool (e : engine) :=
  (micStream e, systemStream e, switchInterval e, audioContext e,
   sourceNode e, inputGainNode e, destinationNode e, keepAliveOscillator e,
   analyserNode e, onChunkCallback e, onStateChange e).

Lemma segment_size chunks :
  blob_size (segment chunks) = sum_list_with blob_size chunks.
Proof.
  unfold segment, new_Blob, blob_size. cbn.
  induction chunks as [|c cs IH]; [done|]. cbn. rewrite length_app. lia.
Qed.

Lemma delivered_size_app l1 l2 :
  delivered_size (l1 ++ l2) = (delivered_size l1 + delivered_size l2)%nat.
Proof. apply sum_list_with_app. Qed.

(** One event on a pool in order. *)
Lemma handle_step e s :
  pool_ok e = true →
  ∃ e' added,
    handle s e = Ret tt e'
    ∧ pool_ok e' = true
    ∧ activeRecorderIndex e'
      = ((activeRecorderIndex e + ticks [s]) mod 2)%nat
    ∧ map rec_role (recorders e') = map rec_role (recorders e)
    ∧ outside_pool e' = outside_pool e
    ∧ log e' = log e ++ added
    ∧ length (List.filter is_recorder_start added) = ticks [s]
    ∧ length (List.filter is_recorder_stop added) = ticks [s]
    ∧ Forall pool_effect added
    ∧ (onChunkCallback e = true →
       (delivered_size added + buffered_size e'
        = buffered_size e + reported_size [s])%nat).
Proof.
  unfold pool_ok. rewrite andb_true_iff, bool_decide_eq_true.
  intros [Hlen Hpool].
  destruct (recorderChunks e) as [|b0 [|b1 [|]]] eqn:Hc; try done.
  destruct (recorders e) as [|r0 [|r1 [|]]] eqn:Hrs; try done.
  assert (Hlook : ∀ index,
    recorderChunks e !! slot_index index
    = Some (match index with Slot0 => b0 | Slot1 => b1 end))
    by (intros []; by rewrite Hc).
  destruct (activeRecorderIndex e) as [|[|]] eqn:Hi; try done;
    apply andb_true_iff in Hpool as [H0 H1];
    apply negb_true_iff in H0 || apply negb_true_iff in H1.
  all: destruct s as [|index data|index now]; cbn [handle].
  all: first
    [ rewrite (switchTick_from_0 e r0 r1 Hrs Hi);
      eexists _, (tick_effects r0 r1)
    | rewrite (switchTick_from_1 e r0 r1 Hrs Hi);
      eexists _, (tick_effects r1 r0)
    | rewrite (ondataavailable_spec e index data _ (Hlook index));
      eexists _, []
    | rewrite (onstop_spec e index now _ (Hlook index));
      eexists _,
        (if bool_decide
              (0 < blob_size
                     (segment (match index with Slot0 => b0 | Slot1 => b1 end)))%nat
            && onChunkCallback e
         then [ChunkDelivered
                 {| blob := segment (match index with Slot0 => b0 | Slot1 => b1 end);
                    timestamp := now |}]
         else []) ];
    (split; [reflexivity|]); clear Hlook;
    destruct e as [mic sys rs chunks idx timer ctx src gain dst osc ana cb sc l];
    cbn in Hc, Hrs, Hi; subst;
    unfold tick_effects, deactivated, activated, buffered_size, pool_ok,
      outside_pool, delivered_size, reported_size;
    rewrite ?H0, ?H1, ?segment_size.
  1, 4: run_engine; cbn; split_and!; try done;
    try (by repeat constructor); intros _; lia.
  1, 3: destruct (bool_decide (0 < blob_size data)%nat) eqn:Hd;
    [|apply bool_decide_eq_false in Hd]; destruct index;
    run_engine; cbn; rewrite ?H0, ?H1, ?app_nil_r, ?sum_list_with_app;
    split_and!; try done; intros _; cbn; lia.
  all: run_engine; destruct index;
    match goal with
    | |- context [bool_decide (0 < ?n)%nat] =>
      destruct (bool_decide (0 < n)%nat) eqn:Hd;
        [|apply bool_decide_eq_false in Hd]
    end;
    cbn; rewrite ?H0, ?H1, ?app_nil_r;
    split_and!; try done;
    lazymatch goal with
    | |- Forall _ _ =>
      first
        [ by constructor
        | destruct cb; [|by constructor];
          apply Forall_singleton; unfold pool_effect; split; [|done];
          apply bool_decide_eq_true in Hd; cbn [blob];
          by rewrite segment_size ]
    | |- _ → _ =>
      intros ->; cbn;
      repeat match goal with
      | |- context [length (concat (map blob_bytes ?b))] =>
        change (length (concat (map blob_bytes b))) with (blob_size (segment b));
        rewrite (segment_size b)
      end; lia
    | |- _ => by destruct cb
    end.
Qed.


(** Any sequence of events on a pool in order. *)
Lemma handle_all_run ss : ∀ e,
  pool_ok e = true →
  ∃ e' added,
    handle_all ss e = Ret tt e'
    ∧ pool_ok e' = true
    ∧ activeRecorderIndex e'
      = ((activeRecorderIndex e + ticks ss) mod 2)%nat
    ∧ map rec_role (recorders e') = map rec_role (recorders e)
    ∧ outside_pool e' = outside_pool e
    ∧ log e' = log e ++ added
    ∧ length (List.filter is_recorder_start added) = ticks ss
    ∧ length (List.filter is_recorder_stop added) = ticks ss
    ∧ Forall pool_effect added
    ∧ (onChunkCallback e = true →
       (delivered_size added + buffered_size e'
        = buffered_size e + reported_size ss)%nat).
Proof.
  induction ss as [|s ss IH]; intros e Hok.
  - exists e, []. cbn. rewrite app_nil_r, Nat.add_0_r.
    split_and!; try done; try (intros _; lia).
    unfold pool_ok in Hok. apply andb_true_iff in Hok as [_ Hok].
    destruct (recorders e) as [|? [|? [|]]]; try done.
    by destruct (activeRecorderIndex e) as [|[|]].
  - destruct (handle_step e s Hok)
      as (e1 & a1 & Hrun1 & Hok1 & Hi1 & Hr1 & Ho1 & Hl1 & Hs1 & Hp1 & Hf1 & Hd1).
    destruct (IH e1 Hok1)
      as (e2 & a2 & Hrun2 & Hok2 & Hi2 & Hr2 & Ho2 & Hl2 & Hs2 & Hp2 & Hf2 & Hd2).
    exists e2, (a1 ++ a2). cbn [handle_all].
    rewrite (bind_ret_l _ _ _ _ _ Hrun1).
    split; [done|]. split; [done|].
    assert (Hticks : ticks (s :: ss) = (ticks [s] + ticks ss)%nat)
      by (unfold ticks; cbn; by destruct s).
    assert (Hcb : onChunkCallback e1 = onChunkCallback e)
      by (unfold outside_pool in Ho1; by simplify_eq).
    split_and!.
    + rewrite Hi2, Hi1, Hticks, Nat.Div0.add_mod_idemp_l.
      by rewrite Nat.add_assoc.
    + by rewrite Hr2.
    + by rewrite Ho2.
    + by rewrite Hl2, Hl1, app_assoc.
    + rewrite List.filter_app, length_app. lia.
    + rewrite List.filter_app, length_app. lia.
    + by apply Forall_app.
    + intros Hcall. specialize (Hd1 Hcall). rewrite <- Hcb in Hcall.
      specialize (Hd2 Hcall). rewrite delivered_size_app.
      assert (reported_size (s :: ss)
              = (reported_size [s] + reported_size ss)%nat)
        by (unfold reported_size; cbn; lia).
      lia.
Qed.

(** X7.  A pool of two recorders and two buffers of which exactly the recorder
    at the active index is not idle stays so under any sequence of timer
    ticks, [dataavailable] events and [stop] events: no handler throws,
    the active index advances by one modulo two per tick, each tick makes
    one start and one stop, and nothing else is done to the platform or
    the client but delivering segments that are not empty.  The streams,
    the timer, the graph nodes and the callbacks are as they were. *)
Theorem pool_invariant ss e :
  pool_ok e = true →
  ∃ e' added,
    handle_all ss e = Ret tt e'
    ∧ pool_ok e' = true
    ∧ activeRecorderIndex e'
      = ((activeRecorderIndex e + ticks ss) mod 2)%nat
    ∧ map rec_role (recorders e') = map rec_role (recorders e)
    ∧ outside_pool e' = outside_pool e
    ∧ log e' = log e ++ added
    ∧ length (List.filter is_recorder_start added) = ticks ss
    ∧ length (List.filter is_recorder_stop added) = ticks ss
    ∧ Forall pool_effect added.
Proof.
  intros Hok.
  destruct (handle_all_run ss e Hok)
    as (e' & added & H1 & H2 & H3 & H4 & H5 & H6 & H7 & H8 & H9 & _).
  by exists e', added.
Qed.

(** X8.  With a chunk callback set, no byte a recorder reports is lost and
    none is delivered twice: after any sequence of events on a pool in
    order, the bytes delivered to the callback and the bytes still waiting
    in the two buffers add up to the bytes that waited before and the
    bytes the [dataavailable] events carried. *)
Theorem pool_conserves_data ss e :
  pool_ok e = true →
  onChunkCallback e = true →
  ∃ e' added,
    handle_all ss e = Ret tt e'
    ∧ log e' = log e ++ added
    ∧ (delivered_size added + buffered_size e'
       = buffered_size e + reported_size ss)%nat.
Proof.
  intros Hok Hcb.
  destruct (handle_all_run ss e Hok)
    as (e' & added & H1 & _ & _ & _ & _ & H6 & _ & _ & _ & H10).
  exists e', added. split_and!; try done. by apply H10.
Qed.

(** A session: two ticks, with the segment of the first recorder reported
    and closed in between. *)
Definition two_intervals : list signal :=
  [ Tick;
    DataAvailable Slot0 {| blob_bytes := [26; 69; 223; 163];
                           blob_type := "audio/webm;codecs=opus" |};
    RecorderStopped_event Slot0 3000;
    Tick ].

Lemma pool_invariant_witness :
  ∃ e',
    handle_all two_intervals rotating = Ret tt e'
    ∧ pool_ok e' = true
    ∧ activeRecorderIndex e' = 0%nat.
Proof.
  destruct (pool_invariant two_intervals rotating eq_refl)
    as (e' & added & H1 & H2 & H3 & _).
  by exists e'.
Defined.

Lemma pool_conserves_data_witness :
  ∃ e' added,
    handle_all two_intervals rotating = Ret tt e'
    ∧ log e' = added
    ∧ delivered_size added = 4%nat
    ∧ buffered_size e' = 0%nat.
Proof.
  destruct (pool_conserves_data two_intervals rotating eq_refl eq_refl)
    as (e' & added & H1 & H2 & H3).
  exists e', added. split; [done|].
  vm_compute in H1. injection H1 as <-.
  vm_compute in H2. subst added. by vm_compute.
Defined.

(** *** A whole session *)

Lemma filter_map_none {A} (p : effect → bool) (f : A → effect) l :
  (∀ x, p (f x) = false) → List.filter p (map f l) = [].
Proof.
  intros H. induction l as [|x l IH]; [done|]. cbn. by rewrite H.
Qed.

Lemma teardown_stops e :
  List.filter is_recorder_stop (teardown e) = stops (recorders e)
  ∧ List.filter is_recorder_start (teardown e) = [].
Proof.
  unfold teardown. rewrite !List.filter_app.
  assert (Hs : ∀ rs, List.filter is_recorder_stop (stops rs) = stops rs
                     ∧ List.filter is_recorder_start (stops rs) = []).
  { intros rs. unfold stops.
    induction (List.filter (λ r, negb (is_inactive r)) rs) as [|r l [IH1 IH2]];
      [done|]. cbn. by rewrite IH1. }
  destruct (Hs (recorders e)) as [-> ->].
  destruct (switchInterval e), (keepAliveOscillator e) as [[[] ?]|],
    (sourceNode e), (inputGainNode e), (analyserNode e), (systemStream e);
    cbn; rewrite ?filter_map_none, ?app_nil_r by done; done.
Qed.

Lemma pool_stops e : pool_ok e = true → length (stops (recorders e)) = 1%nat.
Proof.
  unfold pool_ok, stops. rewrite andb_true_iff. intros [_ H].
  destruct (recorders e) as [|r0 [|r1 [|]]]; try done.
  destruct (activeRecorderIndex e) as [|[|]]; try done;
    apply andb_true_iff in H as [H0 H1]; cbn; rewrite ?H0, ?H1; cbn;
    (apply negb_true_iff in H0 || apply negb_true_iff in H1);
    by rewrite ?H0, ?H1.
Qed.

(** X9.  A session from the grant of the capture to the stop, with any
    sequence of timer ticks and recorder events in between.  When the
    capture is granted with a stream that has an audio track, the engine
    has its two buffers and holds an audio context at that moment, and
    every step of the graph and of the rotation is let through: the start
    call returns [true], no event handler throws, the stop call returns
    and leaves nothing of the session in the engine.  From the grant on,
    every start of a recorder is matched by a stop (one more of each than
    there were ticks). *)
Theorem session_starts_match_stops fails stream firstAudio moreAudio ss e :
  getAudioTracks stream = firstAudio :: moreAudio →
  present (audioContext e) = true →
  graph_available fails = true →
  length (recorderChunks e) = 2%nat →
  ∃ e1 e2 e3 session,
    startSystemAudio_resumed fails (Resolves stream) e = Ret true e1
    ∧ handle_all ss e1 = Ret tt e2
    ∧ stopSystemAudio e2 = Ret tt e3
    ∧ released e3
    ∧ micStream e3 = micStream e
    ∧ log e3 = log e ++ session
    ∧ length (List.filter is_recorder_start session) = S (ticks ss)
    ∧ length (List.filter is_recorder_stop session) = S (ticks ss).
Proof.
  intros Haudio Hheld Hgraph Hlen.
  rewrite (resumed_graph_run fails stream firstAudio moreAudio e
             Haudio Hheld Hgraph).
  set (e1 := started fails stream firstAudio e).
  assert (Hok : pool_ok e1 = true).
  { subst e1. destruct e. cbn in Hlen. unfold pool_ok. cbn.
    by rewrite Hlen. }
  destruct (handle_all_run ss e1 Hok)
    as (e2 & evs & Hrun & Hok2 & _ & _ & Hout & Hlog & Hst & Hsp & _).
  pose (start_log :=
    [DisplayMediaGranted]
      ++ map (λ t, TrackDisabled (track_id t)) (getVideoTracks stream)
      ++ graph_effects fails
      ++ [OnEndedSet (track_id firstAudio)]
      ++ start_notice stream e).
  pose (notice :=
    if onStateChange e2
    then [StateChanged {| micActive := micActive (getState e2);
                          systemAudioActive := false |}]
    else []).
  assert (Hlog1 : log e1 = log e ++ start_log).
  { subst e1 start_log. destruct e. cbn. by rewrite <- !app_assoc. }
  exists e1, e2, (torn_down e2), (start_log ++ evs ++ teardown e2 ++ notice).
  split; [done|]. split; [done|].
  split; [apply stopSystemAudio_spec|].
  split; [apply torn_down_released|].
  assert (Hmic : micStream e2 = micStream e).
  { unfold outside_pool in Hout. simplify_eq. subst e1. by destruct e. }
  split; [done|].
  split.
  { cbn [torn_down log]. rewrite Hlog, Hlog1. by rewrite <- !app_assoc. }
  destruct (teardown_stops e2) as [Hstops Hstarts].
  assert (Hnotice : List.filter is_recorder_start notice = []
                    ∧ List.filter is_recorder_stop notice = [])
    by (subst notice; by destruct (onStateChange e2)).
  destruct Hnotice as [Hn1 Hn2].
  subst start_log. unfold start_notice.
  rewrite !List.filter_app, !length_app, Hstops, Hstarts, Hn1, Hn2,
    Hst, Hsp, (pool_stops e2 Hok2), !filter_map_none by done.
  split; cbn; destruct (onStateChange e); cbn; lia.
Qed.

Lemma session_starts_match_stops_witness :
  ∃ e1 e2 e3,
    startSystemAudio_resumed (λ _, false) (Resolves shared_tab) with_context
    = Ret true e1
    ∧ handle_all two_intervals e1 = Ret tt e2
    ∧ stopSystemAudio e2 = Ret tt e3
    ∧ released e3.
Proof.
  destruct (session_starts_match_stops (λ _, false) shared_tab _ _
              two_intervals with_context eq_refl eq_refl eq_refl eq_refl)
    as (e1 & e2 & e3 & session & H1 & H2 & H3 & H4 & _).
  by exists e1, e2, e3.
Defined.

End CaptureExtra.

(** ** More of the recognition session *)

Module RecognitionExtra.
Import Recognition RecognitionFacts.

Ltac run_session :=
  cbv [step deliver start stop onstart_handler onend_handler onerror_handler
       restart_timer recognition_start recognition_stop
       try_catch when mbind Eff_bind eff_bind emit modify gets get throw
       mret Eff_ret eff_ret
       set_log set_isRunning set_shouldRestart set_pending set_recognition
       set_constructed
       log recognition isRunning shouldRestart constructed pending
       bool_decide decide_rel is_Some_dec negb] in *.

Definition unsupported_message : string :=
  "Web Speech API がサポートされていません（Chromeをご利用ください）".

Definition calls_of_start (evs : list event) : nat :=
  length (List.filter is_call_start evs).

(** An engine nothing was ever started on. *)
Definition untouched (e : engine) : Prop :=
  recognition e = None ∧ isRunning e = false ∧ shouldRestart e = false
  ∧ pending e = [].

Lemma unsupported_step window callbacks ev e :
  isSupported window = false →
  untouched e →
  ∃ e',
    step window callbacks ev e = Ret tt e'
    ∧ untouched e'
    ∧ constructed e' = constructed e
    ∧ log e' = log e
               ++ if is_call_start ev && hasOnError callbacks
                  then [Called (onError unsupported_message)] else [].
Proof.
  intros Hsup (Hr & Hi & Hs & Hp).
  destruct e as [r ir sr n p l]. cbn in Hr, Hi, Hs, Hp. subst.
  destruct ev as [t|t| |t| |res|t]; run_session; rewrite ?Hsup; cbn;
    try (eexists; split; [reflexivity|]; cbn; by rewrite app_nil_r).
  destruct (hasOnError callbacks); eexists; (split; [reflexivity|]); cbn;
    by rewrite ?app_nil_r.
Qed.

(** X10.  On a browser without the primitive nothing ever happens but the error
    callback: whatever the client calls and whatever arrives, no instance
    is constructed, no timer is set, the liveness query answers [false],
    and the log holds one call of [onError], with the message that the
    API is not supported, per call of [start] when the client gave an
    [onError] and nothing otherwise. *)
Theorem unsupported_browser_is_inert window callbacks evs :
  isSupported window = false →
  ∃ e',
    run window callbacks evs new_engine = Ret tt e'
    ∧ recognition e' = None
    ∧ constructed e' = 0%nat
    ∧ pending e' = []
    ∧ getIsRunning e' = false
    ∧ log e' = if hasOnError callbacks
               then repeat (Called (onError unsupported_message))
                           (calls_of_start evs)
               else [].
Proof.
  intros Hsup.
  assert (Hgen : ∀ e, untouched e →
    ∃ e', run window callbacks evs e = Ret tt e'
          ∧ untouched e'
          ∧ constructed e' = constructed e
          ∧ log e' = log e
                     ++ if hasOnError callbacks
                        then repeat (Called (onError unsupported_message))
                                    (calls_of_start evs)
                        else []).
  { induction evs as [|ev evs IH]; intros e He.
    - exists e. split_and!; try done.
      destruct (hasOnError callbacks); by rewrite app_nil_r.
    - destruct (unsupported_step window callbacks ev e Hsup He)
        as (e1 & H1 & He1 & Hc1 & Hl1).
      destruct (IH e1 He1) as (e2 & H2 & He2 & Hc2 & Hl2).
      exists e2. rewrite (run_cons _ _ _ _ _ _ H1).
      split_and!; [done|done|congruence|].
      rewrite Hl2, Hl1, <- app_assoc. f_equal.
      unfold calls_of_start. cbn [List.filter].
      destruct (is_call_start ev), (hasOnError callbacks); by cbn. }
  destruct (Hgen new_engine) as (e' & H & (Hr & Hi & Hs & Hp) & Hc & Hl);
    [done|].
  exists e'. unfold getIsRunning. rewrite Hi, Hs.
  by split_and!.
Qed.

Lemma unsupported_browser_is_inert_witness :
  ∃ e',
    run {| hasWindow := true; hasWebkitSpeechRecognition := false;
           hasSpeechRecognition := false |} all_callbacks
        [CallStart false; SignalError; CallStart false; TimerFires false]
        new_engine = Ret tt e'
    ∧ log e' = [Called (onError unsupported_message);
                Called (onError unsupported_message)].
Proof.
  destruct (unsupported_browser_is_inert
              {| hasWindow := true; hasWebkitSpeechRecognition := false;
                 hasSpeechRecognition := false |} all_callbacks
              [CallStart false; SignalError; CallStart false; TimerFires false]
              eq_refl) as (e' & H & _ & _ & _ & _ & Hl).
  by exists e'.
Defined.

(** *** Restart timers *)

Definition is_timer_restart (x : effect) : bool :=
  match x with PrimitiveStart ByErrorTimer _ => true | _ => false end.

Definition is_ended_restart (x : effect) : bool :=
  match x with PrimitiveStart ByEnded _ => true | _ => false end.

Definition count (p : effect → bool) (l : list effect) : nat :=
  length (List.filter p l).

Definition errors (evs : list event) : nat :=
  length (List.filter (λ ev, match ev with SignalError => true | _ => false end)
                      evs).

Definition endings (evs : list event) : nat :=
  length (List.filter (λ ev, match ev with SignalEnded _ => true | _ => false end)
                      evs).

(** Every timer was set by the [onerror] handler of an instance, and a
    timer that fired made one restart attempt. *)
Definition timers_accounted (e : engine) : Prop :=
  (pending e ≠ [] → is_Some (recognition e))
  ∧ (length (pending e) + count is_timer_restart (log e)
     = count is_timeout (log e))%nat.

Lemma count_snoc p l x :
  count p (l ++ [x]) = (count p l + if p x then 1 else 0)%nat.
Proof.
  unfold count. rewrite List.filter_app, length_app. cbn.
  by destruct (p x).
Qed.

Lemma count_app p l1 l2 : count p (l1 ++ l2) = (count p l1 + count p l2)%nat.
Proof. unfold count. by rewrite List.filter_app, length_app. Qed.

Lemma delivered_calls (p : effect → bool) w :
  (∀ c, p (Called c) = false) → List.filter p (delivered w) = [].
Proof.
  intros H. unfold delivered.
  destruct (truthy (interim_text w)), (truthy (final_text w)); cbn;
    by rewrite ?H.
Qed.

Lemma timers_step window callbacks ev e :
  timers_accounted e →
  ∃ e',
    step window callbacks ev e = Ret tt e'
    ∧ timers_accounted e'
    ∧ (count is_timeout (log e')
       ≤ count is_timeout (log e)
         + match ev with SignalError => 1 | _ => 0 end)%nat
    ∧ (count is_ended_restart (log e')
       ≤ count is_ended_restart (log e)
         + match ev with SignalEnded _ => 1 | _ => 0 end)%nat.
Proof.
  unfold timers_accounted.
  destruct e as [[id|] ir sr n p l], ev as [t|t| |t| |res|t]; cbn;
    intros [H1 H2]; run_session;
    try rewrite onresult_handler_spec;
    repeat match goal with
           | |- context [if negb ?b then _ else _] => destruct b eqn:?; cbn [negb]
           | |- context [if ?b then _ else _] => destruct b eqn:?
           | |- context [match ?x with _ => _ end] => destruct x eqn:?
           end;
    eexists; (split; [reflexivity|]); cbn [log pending recognition set_log];
    rewrite ?count_snoc, ?count_app, ?length_app; cbn.
  all: subst; cbn [length] in *; unfold count in *;
    rewrite ?delivered_calls by done; cbn [length];
    split_and!; eauto; try lia; try done.
  all: by destruct H1 as [? ?].
Qed.

Lemma timers_run window callbacks evs : ∀ e,
  timers_accounted e →
  ∃ e',
    run window callbacks evs e = Ret tt e'
    ∧ timers_accounted e'
    ∧ (count is_timeout (log e') ≤ count is_timeout (log e) + errors evs)%nat
    ∧ (count is_ended_restart (log e')
       ≤ count is_ended_restart (log e) + endings evs)%nat.
Proof.
  induction evs as [|ev evs IH]; intros e He.
  - exists e. unfold errors, endings. cbn. split_and!; [done|done|lia|lia].
  - destruct (timers_step window callbacks ev e He) as (e1 & H1 & He1 & Ht1 & Hr1).
    destruct (IH e1 He1) as (e2 & H2 & He2 & Ht2 & Hr2).
    exists e2. rewrite (run_cons _ _ _ _ _ _ H1).
    split_and!; [done|done| |].
    + unfold errors in *. cbn [List.filter]. destruct ev; cbn [length]; lia.
    + unfold endings in *. cbn [List.filter]. destruct ev; cbn [length]; lia.
Qed.

(** X11.  Restart attempts never outnumber the signals that cause them.  In
    every session of a fresh engine, whatever the primitive throws: the
    timers set are at most the [error] signals; every timer set has fired
    one restart attempt or is still pending, and no restart attempt by
    timer has another source; the restart attempts made at once are at
    most the [ended] signals. *)
Theorem restarts_are_accounted window callbacks evs :
  ∃ e',
    run window callbacks evs new_engine = Ret tt e'
    ∧ (length (pending e') + count is_timer_restart (log e')
       = count is_timeout (log e'))%nat
    ∧ (count is_timeout (log e') ≤ errors evs)%nat
    ∧ (count is_ended_restart (log e') ≤ endings evs)%nat.
Proof.
  destruct (timers_run window callbacks evs new_engine)
    as (e' & H & [_ Ha] & Ht & Hr); [by split|].
  exists e'. by split_and!.
Qed.

(** *** A start the primitive refuses *)

Definition start_failed_message : string := "音声認識の開始に失敗しました".

(** X12.  When the primitive's [start()] throws, the [start] method returns
    [false] and reports through [onError] when the client gave one; but
    the instance stays in the engine with the intent flag up, so the
    liveness query answers [true], and an [ended] signal that follows
    makes a restart attempt on that instance. *)
Theorem refused_start_keeps_intent window callbacks e throws :
  isSupported window = true →
  isRunning e = false →
  ∃ e1 e2,
    start window callbacks true e = Ret false e1
    ∧ recognition e1 = Some (constructed e)
    ∧ constructed e1 = S (constructed e)
    ∧ getIsRunning e1 = true
    ∧ log e1 = log e
               ++ [Constructed (constructed e);
                   PrimitiveStart ByStart (constructed e)]
               ++ (if hasOnError callbacks
                   then [Called (onError start_failed_message)] else [])
    ∧ step window callbacks (SignalEnded throws) e1 = Ret tt e2
    ∧ log e2 = log e1 ++ [PrimitiveStart ByEnded (constructed e)]
    ∧ getIsRunning e2 = true.
Proof.
  destruct e as [r ir sr n p l]. cbn. intros Hsup ->.
  unfold getIsRunning. run_session. rewrite Hsup.
  destruct (hasOnError callbacks), throws; eexists _, _;
    (split; [reflexivity|]); cbn; rewrite <- ?app_assoc;
    by split_and!.
Qed.

Lemma refused_start_keeps_intent_witness :
  ∃ e1,
    start chrome all_callbacks true new_engine = Ret false e1
    ∧ getIsRunning e1 = true.
Proof.
  destruct (refused_start_keeps_intent chrome all_callbacks new_engine false
              eq_refl eq_refl) as (e1 & e2 & H1 & _ & _ & H2 & _).
  by exists e1.
Defined.

(** *** A stop with no timer pending *)

(** X13.  When no restart timer is pending, [stop()] ends the session for
    good: whatever the primitive signals afterwards ([started], [ended],
    [error], results, in any number and order) and however often [stop()]
    is called again, no restart attempt is made and no timer is set,
    until the client calls [start]. *)
Theorem stop_is_final_without_timer window callbacks e throws evs :
  pending e = [] →
  forallb (λ ev, negb (is_call_start ev)) evs = true →
  ∃ e',
    run window callbacks (CallStop throws :: evs) e = Ret tt e'
    ∧ restarts (log e') = restarts (log e)
    ∧ shouldRestart e' = false
    ∧ pending e' = [].
Proof.
  intros Hp Hevs.
  destruct (stop_spec e throws) as (e1 & H1 & _ & Hs1 & _ & Hp1 & Hl1).
  rewrite Hp in Hp1.
  assert (Hquiet : ∀ evs e1, shouldRestart e1 = false → pending e1 = [] →
    forallb (λ ev, negb (is_call_start ev)) evs = true →
    ∃ e', run window callbacks evs e1 = Ret tt e'
          ∧ restarts (log e') = restarts (log e1)
          ∧ shouldRestart e' = false ∧ pending e' = []).
  { clear. induction evs as [|ev evs IH]; intros e Hs Hp Hevs.
    - by exists e.
    - cbn [forallb] in Hevs. apply andb_true_iff in Hevs as [Hev Hevs].
      apply negb_true_iff in Hev.
      destruct (quiet_step window callbacks ev e Hs Hp Hev)
        as (e1 & H1 & Hs1 & Hp1 & Hl1).
      destruct (IH e1 Hs1 Hp1 Hevs) as (e' & H' & Hl' & Hs' & Hp').
      exists e'. rewrite (run_cons _ _ _ _ _ _ H1).
      split_and!; [done|congruence|done|done]. }
  destruct (Hquiet evs e1 Hs1 Hp1 Hevs) as (e' & H' & Hl' & Hs' & Hp').
  exists e'. rewrite (run_cons _ _ (CallStop throws) _ _ _ H1).
  split_and!; try done. rewrite Hl', Hl1. unfold restarts.
  rewrite List.filter_app. destruct (recognition e); by rewrite app_nil_r.
Qed.

Lemma stop_is_final_without_timer_witness :
  ∃ e e',
    run chrome all_callbacks [CallStart false; SignalStarted] new_engine
    = Ret tt e
    ∧ run chrome all_callbacks
          [CallStop false; SignalEnded false; SignalError; TimerFires false] e
      = Ret tt e'
    ∧ restarts (log e') = [].
Proof.
  eexists. 
  destruct (stop_is_final_without_timer chrome all_callbacks
              {| recognition := Some 0%nat; isRunning := true;
                 shouldRestart := true; constructed := 1; pending := [];
                 log := [Constructed 0; PrimitiveStart ByStart 0;
                         Called onStart] |}
              false [SignalEnded false; SignalError; TimerFires false]
              eq_refl eq_refl) as (e' & H & Hl & _).
  exists e'. split; [reflexivity|]. by split.
Defined.

End RecognitionExtra.

(** ** The evaluation templates *)

Module TemplatesFacts.
Import JsString Templates.

Definition bounded (t : EvalTemplate) : Prop :=
  (length (items t) ≤ MAX_ITEMS)%nat.

Definition ids (templates : list EvalTemplate) : list jsstring :=
  map id templates.

Lemma digits_inj d1 : ∀ d2, digits d1 = digits d2 → d1 = d2.
Proof.
  induction d1; intros []; cbn; intros H; try done;
    injection H as H; f_equal; by apply IHd1.
Qed.

Lemma number_to_string_inj n m :
  number_to_string n = number_to_string m → n = m.
Proof.
  unfold number_to_string. intros H%digits_inj.
  by rewrite <- (DecimalN.Unsigned.of_to n), <- (DecimalN.Unsigned.of_to m), H.
Qed.

Lemma take_bounded (items : list EvalTemplateItem) :
  (length (take MAX_ITEMS items) ≤ MAX_ITEMS)%nat.
Proof. rewrite length_take. lia. Qed.

Lemma updateTemplate_ids i name items so prev :
  ids (updateTemplate i name items so prev) = ids prev.
Proof.
  unfold ids, updateTemplate. rewrite map_map. apply map_ext.
  intros t. by destruct (bool_decide (id t = i)).
Qed.

(** Every operation keeps each template within [MAX_ITEMS] items. *)
Lemma updater_bounded a prev :
  Forall bounded prev → Forall bounded (updater a prev).
Proof.
  intros H. destruct a as [now iso name items so|i name items so|i]; cbn.
  - apply Forall_app. split; [done|]. apply Forall_singleton. apply take_bounded.
  - unfold updateTemplate. apply Forall_map.
    eapply Forall_impl; [|exact H]. intros t Ht. cbn.
    destruct (bool_decide (id t = i)); [apply take_bounded|done].
  - unfold deleteTemplate. destruct (length prev <=? 1)%nat; [done|].
    rewrite List.Forall_forall in *. intros t [Hin _]%filter_In. by apply H.
Qed.

Lemma default_bounded iso : Forall bounded (getDefaultTemplates iso).
Proof. apply Forall_singleton. unfold bounded, MAX_ITEMS. cbn. lia. Qed.

(** A user who pastes twelve items into a new template. *)
Definition twelve_items : list EvalTemplateItem :=
  repeat {| label := js "item" |} 12.

(** X14.  No template ever holds more than [MAX_ITEMS] items: from templates
    within the bound (the default template has five items), every
    sequence of additions, updates and deletions, with item lists of any
    length, leaves every template within the bound. *)
Theorem items_stay_bounded acts prev :
  Forall bounded prev →
  Forall bounded (apply_all acts prev).
Proof.
  revert prev. induction acts as [|a acts IH]; intros p Hp; [done|].
  cbn. apply IH. by apply updater_bounded.
Qed.

Lemma items_stay_bounded_witness :
  Forall bounded
    (apply_all [Add 1730000000000 [] (js "new") twelve_items None;
                Update (js "default") (js "renamed") twelve_items None]
               (getDefaultTemplates [])).
Proof.
  apply (items_stay_bounded _ (getDefaultTemplates [])).
  apply Forall_singleton. unfold bounded. cbn. unfold MAX_ITEMS. lia.
Defined.

(** *** Identifiers *)

Definition removed (i : jsstring) (t : EvalTemplate) : bool :=
  negb (bool_decide (id t = i)).

Lemma filter_ids_subset f prev x :
  In x (ids (List.filter f prev)) → In x (ids prev).
Proof.
  unfold ids. rewrite !List.in_map_iff.
  intros (t & Ht & [Hin _]%filter_In). by exists t.
Qed.

Lemma filter_ids_NoDup f prev :
  List.NoDup (ids prev) → List.NoDup (ids (List.filter f prev)).
Proof.
  induction prev as [|t l IH]; [done|]. cbn.
  rewrite List.NoDup_cons_iff. intros [Hnot Hl].
  destruct (f t); [|by apply IH]. cbn.
  apply List.NoDup_cons_iff. split; [|by apply IH].
  intros Hin. apply Hnot. by eapply filter_ids_subset.
Qed.

Lemma filter_keeps_all (f : EvalTemplate → bool) l :
  (∀ t, In t l → f t = true) → List.filter f l = l.
Proof.
  induction l as [|t l IH]; [done|]. cbn. intros H.
  rewrite (H t) by auto. f_equal. apply IH. auto.
Qed.

Lemma unknown_id_removed i l :
  ¬ In i (ids l) → List.filter (removed i) l = l.
Proof.
  intros Hnot. apply filter_keeps_all. intros t Hin. unfold removed.
  apply negb_true_iff, bool_decide_eq_false. intros <-.
  apply Hnot. unfold ids. apply List.in_map_iff. by exists t.
Qed.

Lemma removed_at_most_one i l :
  List.NoDup (ids l) →
  (length l ≤ S (length (List.filter (removed i) l)))%nat.
Proof.
  induction l as [|t l IH]; cbn; [lia|].
  rewrite List.NoDup_cons_iff. intros [Hnot Hl].
  unfold removed at 1. destruct (bool_decide (id t = i)) eqn:Hi; cbn.
  - apply bool_decide_eq_true in Hi. subst i.
    by rewrite unknown_id_removed.
  - specialize (IH Hl). lia.
Qed.

(** X15.  With identifiers that are pairwise distinct, [deleteTemplate] keeps
    at least one template: it removes the one template with the given
    identifier, and none at all when only one template is left or when no
    template has the identifier.  The templates it keeps are unchanged, in
    their order, and their identifiers stay distinct. *)
Theorem delete_keeps_one i prev :
  List.NoDup (ids prev) →
  prev ≠ [] →
  deleteTemplate i prev ≠ []
  ∧ (length prev ≤ S (length (deleteTemplate i prev)))%nat
  ∧ List.NoDup (ids (deleteTemplate i prev))
  ∧ ((length prev ≤ 1)%nat ∨ ¬ In i (ids prev) → deleteTemplate i prev = prev)
  ∧ ((1 < length prev)%nat →
     ¬ In i (ids (deleteTemplate i prev))
     ∧ deleteTemplate i prev = List.filter (λ t, negb (bool_decide (id t = i))) prev).
Proof.
  intros Hnd Hne. unfold deleteTemplate.
  destruct (length prev <=? 1)%nat eqn:Hlen.
  - apply Nat.leb_le in Hlen. split_and!; try done; [lia|]. intros. lia.
  - apply Nat.leb_gt in Hlen.
    pose proof (removed_at_most_one i prev Hnd) as Hone.
    unfold removed in Hone. split_and!.
    + intros Hnil. rewrite Hnil in Hone. cbn in Hone. lia.
    + done.
    + by apply filter_ids_NoDup.
    + intros [?|Hnot]; [lia|]. by apply unknown_id_removed.
    + intros _. split; [|done]. unfold ids. rewrite List.in_map_iff.
      intros (t & Ht & [_ Hf]%filter_In).
      apply negb_true_iff, bool_decide_eq_false in Hf. done.
Qed.

Lemma delete_keeps_one_witness :
  (2 ≤ S (length (deleteTemplate (js "default")
                    (snd (addTemplate 1730000000000 [] (js "new") [] None)
                         (getDefaultTemplates [])))))%nat.
Proof.
  refine (proj1 (proj2 (delete_keeps_one (js "default")
    (snd (addTemplate 1730000000000 [] (js "new") [] None)
         (getDefaultTemplates [])) _ _))).
  - vm_compute. repeat constructor; cbn; intuition discriminate.
  - by vm_compute.
Defined.

(** The timestamps of the additions in a sequence of calls. *)
Definition add_times (acts : list action) : list N :=
  omap (λ a, match a with Add now _ _ _ _ => Some now | _ => None end) acts.

Definition template_id (now : N) : jsstring :=
  js "tmpl_" ++ number_to_string now.

(** The templates are some, their identifiers are distinct, and each is
    the default's or was made at one of the timestamps [used]. *)
Definition well_identified (used : list N) (templates : list EvalTemplate)
  : Prop :=
  List.NoDup (ids templates)
  ∧ templates ≠ []
  ∧ ∀ i, In i (ids templates) →
         i = js "default" ∨ ∃ now, In now used ∧ i = template_id now.

Lemma template_id_inj n m : template_id n = template_id m → n = m.
Proof.
  unfold template_id. intros H. apply number_to_string_inj.
  by simplify_list_eq.
Qed.

Lemma template_id_not_default now : template_id now ≠ js "default".
Proof. unfold template_id. vm_compute (js _). by intros [=]. Qed.

Lemma updater_identified a used prev :
  well_identified used prev →
  match a with Add now _ _ _ _ => ¬ In now used | _ => True end →
  well_identified (used ++ add_times [a]) (updater a prev).
Proof.
  intros (Hnd & Hne & Hids) Hfresh.
  destruct a as [now iso name items so|i name items so|i];
    [cbn|change (add_times _) with (@nil N); cbn [updater]..].
  - split_and!.
    + unfold ids. rewrite map_app. cbn.
      apply List.NoDup_app; [done|repeat constructor; by intros []|].
      intros j Hj [<-|[]].
      destruct (Hids _ Hj) as [Hd|(n & Hn & Hi)].
      * by apply (template_id_not_default now).
      * apply template_id_inj in Hi. by subst.
    + by destruct prev.
    + intros j. unfold ids. rewrite map_app, in_app_iff.
      intros [Hj|[<-|[]]].
      * destruct (Hids _ Hj) as [?|(n & Hn & Hi)]; [by left|].
        right. exists n. rewrite in_app_iff. auto.
      * right. exists now. rewrite in_app_iff. cbn. auto.
  - rewrite app_nil_r. unfold well_identified.
    rewrite updateTemplate_ids. split_and!; [done| |done].
    unfold updateTemplate. by destruct prev.
  - rewrite app_nil_r. unfold well_identified, deleteTemplate.
    destruct (length prev <=? 1)%nat eqn:Hlen; [done|].
    apply Nat.leb_gt in Hlen. split_and!.
    + by apply filter_ids_NoDup.
    + pose proof (removed_at_most_one i prev Hnd) as Hone.
      unfold removed in Hone. intros Hnil. rewrite Hnil in Hone.
      cbn in Hone. lia.
    + intros j Hj. apply Hids. by eapply filter_ids_subset.
Qed.

Lemma apply_all_identified acts : ∀ used prev,
  well_identified used prev →
  List.NoDup (used ++ add_times acts) →
  well_identified (used ++ add_times acts) (apply_all acts prev).
Proof.
  induction acts as [|a acts IH]; intros used prev Hw Hnd.
  - cbn. by rewrite app_nil_r.
  - assert (Hsplit : add_times (a :: acts) = add_times [a] ++ add_times acts)
      by (by destruct a).
    rewrite Hsplit, app_assoc in *. cbn [apply_all foldl].
    apply IH; [|done].
    apply updater_identified; [done|].
    destruct a as [now ? ? ? ?| |]; try done. cbn in Hnd.
    rewrite <- app_assoc in Hnd. cbn in Hnd.
    apply List.NoDup_remove_2 in Hnd. rewrite in_app_iff in Hnd. tauto.
Qed.

(** X16.  As long as no two templates are added in the same millisecond, the
    list that starts from the default template never becomes empty and
    never holds two templates with one identifier, whatever is added,
    updated and deleted. *)
Theorem templates_never_empty acts iso :
  List.NoDup (add_times acts) →
  apply_all acts (getDefaultTemplates iso) ≠ []
  ∧ List.NoDup (ids (apply_all acts (getDefaultTemplates iso))).
Proof.
  intros Hnd.
  destruct (apply_all_identified acts [] (getDefaultTemplates iso))
    as (H1 & H2 & _); [|done|done].
  split_and!.
  - cbn. repeat constructor. by intros [].
  - done.
  - intros i [<-|[]]. by left.
Qed.

Lemma templates_never_empty_witness :
  List.NoDup
    (ids (apply_all [Add 1730000000000 [] (js "first") [] None;
                     Add 1730000000001 [] (js "second") [] None;
                     Delete (js "default");
                     Delete (template_id 1730000000000);
                     Delete (template_id 1730000000001)]
                    (getDefaultTemplates []))).
Proof.
  refine (proj2 (templates_never_empty _ [] _)).
  vm_compute. repeat constructor; cbn; intuition discriminate.
Defined.

(** X17.  Two templates added in the same millisecond share their identifier,
    and deleting one deletes both: from the default list, two additions
    at one timestamp and two deletions leave no template at all, whatever
    the names and items. *)
Theorem same_millisecond_empties now iso0 iso1 iso2 name1 name2 items1 items2
    so1 so2 :
  apply_all [Add now iso1 name1 items1 so1;
             Add now iso2 name2 items2 so2;
             Delete (js "default");
             Delete (template_id now)]
            (getDefaultTemplates iso0)
  = [].
Proof.
  unfold apply_all. cbn [foldl updater addTemplate snd app getDefaultTemplates].
  unfold deleteTemplate. cbn [length Nat.leb List.filter id newTemplate].
  fold (template_id now).
  rewrite (bool_decide_eq_false_2 (template_id now = js "default"))
    by apply template_id_not_default.
  rewrite (bool_decide_eq_true_2 (js "default" = js "default")) by done.
  cbn [negb length Nat.leb List.filter id].
  change (id (newTemplate now iso2 name2 items2 so2)) with (template_id now).
  by rewrite !(bool_decide_eq_true_2 (template_id now = template_id now)).
Qed.

(** *** Updates *)

(** X18.  [updateTemplate] changes no identifier, no creation date, and neither
    the number nor the order of the templates; a template with another
    identifier is left as it is, so an unknown identifier changes nothing.
    A template with the given identifier takes the new name and the first
    [MAX_ITEMS] of the new items, and keeps its score options when none
    are given. *)
Theorem update_keeps_identity i name items so prev :
  ids (updateTemplate i name items so prev) = ids prev
  ∧ map createdAt (updateTemplate i name items so prev) = map createdAt prev
  ∧ length (updateTemplate i name items so prev) = length prev
  ∧ (¬ In i (ids prev) → updateTemplate i name items so prev = prev)
  ∧ ∀ k t,
      prev !! k = Some t →
      ∃ t', updateTemplate i name items so prev !! k = Some t'
            ∧ (id t ≠ i → t' = t)
            ∧ (id t = i →
               Templates.name t' = name
               ∧ Templates.items t' = take MAX_ITEMS items
               ∧ scoreOptions t' = match so with
                                   | Some o => Some o
                                   | None => scoreOptions t
                                   end).
Proof.
  split_and!.
  - apply updateTemplate_ids.
  - unfold updateTemplate. rewrite map_map. apply map_ext.
    intros t. by destruct (bool_decide (id t = i)).
  - unfold updateTemplate. by rewrite length_map.
  - intros Hnot. unfold updateTemplate.
    rewrite <- (map_id prev) at 2. apply map_ext_in.
    intros t Hin. rewrite bool_decide_eq_false_2; [done|].
    intros <-. apply Hnot. unfold ids. apply List.in_map_iff. by exists t.
  - intros k t Hk. unfold updateTemplate.
    change (map ?f prev) with (f <$> prev).
    rewrite list_lookup_fmap, Hk. cbn. eexists. split; [done|].
    destruct (bool_decide (id t = i)) eqn:Hi.
    + apply bool_decide_eq_true in Hi. by split.
    + apply bool_decide_eq_false in Hi. by split.
Qed.

(** *** Adding and deleting *)

(** X19.  Adding a template and deleting it again gives back the list as it
    was, when the list was not empty and the new identifier was not in
    use.  The template returned by [addTemplate] is the one appended. *)
Theorem add_then_delete now iso name items so prev :
  prev ≠ [] →
  ¬ In (template_id now) (ids prev) →
  let '(t, add) := addTemplate now iso name items so in
  add prev = prev ++ [t]
  ∧ id t = template_id now
  ∧ deleteTemplate (id t) (add prev) = prev.
Proof.
  intros Hne Hfresh. cbn. split; [done|]. split; [done|].
  fold (template_id now). unfold deleteTemplate.
  rewrite length_app. cbn [length].
  destruct prev as [|t0 l]; [done|]. cbn [length].
  replace (S (length l) + 1 <=? 1)%nat with false
    by (symmetry; apply Nat.leb_gt; lia).
  rewrite List.filter_app. cbn [List.filter id].
  rewrite (bool_decide_eq_true_2 (template_id now = template_id now)) by done.
  cbn [negb]. rewrite app_nil_r.
  by apply (unknown_id_removed (template_id now) (t0 :: l)).
Qed.

Lemma add_then_delete_witness :
  deleteTemplate (template_id 1730000000000)
    (snd (addTemplate 1730000000000 [] (js "new") twelve_items None)
         (getDefaultTemplates []))
  = getDefaultTemplates [].
Proof.
  refine (proj2 (proj2 (add_then_delete 1730000000000 [] (js "new")
                          twelve_items None (getDefaultTemplates []) _ _))).
  - done.
  - vm_compute. intuition discriminate.
Defined.

End TemplatesFacts.

(** ** From a chunk to the conversation log *)

Module PanelFacts.
Import JsString JsStringFacts Groq GroqFacts Panel.

(** What [transcribeWithGroq] can hand over: nothing, or a trimmed text
    that is not empty and holds no denylist entry. *)
Lemma transcribe_result fetch newFormData audioBlob groqApiKey c :
  ∃ r c',
    transcribeWithGroq fetch newFormData audioBlob groqApiKey c = Ret r c'
    ∧ ∀ t, r = Some t →
           truthy t = true
           ∧ existsb (λ h, includes t h) WHISPER_HALLUCINATIONS = false
           ∧ ∃ raw, t = trim raw.
Proof.
  unfold transcribeWithGroq.
  destruct groqApiKey as [|k key]; cbn [truthy negb];
    [by eexists _, _|].
  unfold try_catch, mbind, Eff_bind, eff_bind.
  destruct newFormData as [[]|e0];
    cbn [await mret Eff_ret eff_ret throw]; [|by eexists _, _].
  destruct (fetch _) as [response|e1];
    cbn [await mret Eff_ret eff_ret throw]; [|by eexists _, _].
  destruct (ok response); cbn [negb].
  2:{ destruct (Groq.text response) as [body|e2];
        cbn [await mret Eff_ret eff_ret throw]; by eexists _, _. }
  destruct (json response) as [data|e3];
    cbn [await mret Eff_ret eff_ret throw]; [|by eexists _, _].
  destruct (get_property data "text") as [member|e4];
    cbn [await mret Eff_ret eff_ret throw]; [|by eexists _, _].
  destruct (optional_trim member) as [t|e5] eqn:Htrim;
    cbn [await mret Eff_ret eff_ret throw]; [|by eexists _, _].
  destruct (dropHallucination_returns t c) as [c' ->].
  eexists _, _. split; [done|]. intros t' Ht'.
  destruct t as [t|]; [|done].
  destruct (truthy t) eqn:Htruthy; cbn [negb orb] in Ht'; [|done].
  destruct (existsb _ WHISPER_HALLUCINATIONS) eqn:Hdeny; [done|].
  injection Ht' as <-. split_and!; [done|done|].
  destruct member as [[| | |raw| |]|]; try done.
  cbn in Htrim. injection Htrim as <-. by exists raw.
Qed.

(** A log entry as the other channel may write it. *)
Definition clean (l : LogItem) : Prop :=
  speaker l = Other
  ∧ Panel.text l ≠ []
  ∧ ¬ denylisted (Panel.text l)
  ∧ ∃ raw, Panel.text l = trim raw.

Definition buffered (added : list LogItem) : jsstring :=
  concat (map (λ l, Panel.text l ++ [10]) added).

Lemma handleAudioChunk_spec fetch newFormData groqApiKey time chunk p :
  ∃ p' added,
    handleAudioChunk fetch newFormData groqApiKey time chunk p = Ret tt p'
    ∧ logs (page_state p') = logs (page_state p) ++ added
    ∧ aiBuffer (page_state p') = aiBuffer (page_state p) ++ buffered added
    ∧ Forall clean added
    ∧ (length added ≤ 1)%nat
    ∧ Forall (λ l, Panel.time l = time) added
    ∧ (groqApiKey = [] → p' = p).
Proof.
  unfold handleAudioChunk.
  destruct (truthy groqApiKey) eqn:Hkey; cbn [negb].
  2:{ exists p, []. cbn. rewrite !app_nil_r.
      split_and!; first [done | by constructor | cbn; lia]. }
  unfold mbind, Eff_bind, eff_bind, on_console.
  destruct (transcribe_result fetch newFormData (Capture.blob chunk)
              groqApiKey (page_console p)) as (r & c' & -> & Hr).
  assert (Hnokey : groqApiKey = [] → False) by (by intros ->).
  destruct r as [t|].
  - destruct (Hr t eq_refl) as (Ht & Hdeny & raw & Hraw).
    rewrite Ht. cbn.
    eexists _, [{| time := time; text := t; speaker := Other |}].
    split; [reflexivity|]. cbn. rewrite app_nil_r.
    split_and!; try done; try (by repeat constructor); try lia.
    apply Forall_singleton. split_and!; cbn.
    + done.
    + intros ->. done.
    + rewrite <- some_includes_spec. by rewrite Hdeny.
    + by exists raw.
  - eexists _, []. split; [reflexivity|]. cbn. rewrite !app_nil_r.
    split_and!; first [done | by constructor | cbn; lia].
Qed.

(** X20.  Whatever the recorders deliver and whatever the network does, the
    handler of the chunks, run on one chunk after another, never throws,
    and all it does to the store is append entries of the other speaker
    to the log, at most one per chunk; every such entry is a trimmed text
    that is not empty and holds no denylist entry, and the buffer for the
    assistant grows by these texts, each followed by a line feed.
    Without an API key nothing changes at all, not even the console. *)
Theorem other_transcripts_are_clean groqApiKey ds p :
  ∃ p' added,
    handle_chunks groqApiKey ds p = Ret tt p'
    ∧ logs (page_state p') = logs (page_state p) ++ added
    ∧ aiBuffer (page_state p') = aiBuffer (page_state p) ++ buffered added
    ∧ Forall clean added
    ∧ (length added ≤ length ds)%nat
    ∧ (groqApiKey = [] → p' = p).
Proof.
  revert p. induction ds as [|d ds IH]; intros p.
  - exists p, []. cbn. rewrite !app_nil_r.
    split_and!; first [done | by constructor | cbn; lia].
  - destruct (handleAudioChunk_spec (network d) (formData d) groqApiKey
                (clock d) (chunk d) p)
      as (p1 & a1 & H1 & Hl1 & Hb1 & Hc1 & Hn1 & _ & Hk1).
    destruct (IH p1) as (p2 & a2 & H2 & Hl2 & Hb2 & Hc2 & Hn2 & Hk2).
    exists p2, (a1 ++ a2). cbn [handle_chunks].
    rewrite (bind_ret_l _ _ _ _ _ H1). split; [done|].
    split_and!.
    + by rewrite Hl2, Hl1, app_assoc.
    + rewrite Hb2, Hb1. unfold buffered.
      by rewrite map_app, concat_app, app_assoc.
    + by apply Forall_app.
    + rewrite length_app. cbn [length]. lia.
    + intros Hk. by rewrite (Hk2 Hk), (Hk1 Hk).
Qed.

End PanelFacts.

(** ** The connection test *)

Module ConnectionFacts.
Import JsString Groq Connection.

(** X21.  The connection test never throws and writes nothing to the
    console.  It reports success exactly when the key is not empty and
    the request resolves with an OK response.  An empty key is answered
    without any request being looked at; a response that is not OK gives
    the status and the body of the response in the message; whatever is
    thrown on the way ([fetch], reading the body) gives the message of
    the error. *)
Theorem testGroqConnection_reports fetch errorMessage groqApiKey c :
  ∃ r,
    testGroqConnection fetch errorMessage groqApiKey c = Ret r c
    ∧ (success r = true
       ↔ groqApiKey ≠ []
         ∧ ∃ response, fetch (models_request groqApiKey) = Resolves response
                       ∧ ok response = true)
    ∧ (groqApiKey = [] → message r = js "Groq APIキーが未入力です")
    ∧ (groqApiKey ≠ [] →
       (∀ e, fetch (models_request groqApiKey) = Rejects e →
             message r = js "接続エラー: " ++ errorMessage e)
       ∧ ∀ response,
           fetch (models_request groqApiKey) = Resolves response →
           (ok response = true →
            message r = js "✅ Groq API接続成功！Whisperモデルが利用可能です。")
           ∧ (ok response = false →
              (∀ errText, Groq.text response = Resolves errText →
                 message r = js "接続エラー ("
                             ++ Templates.number_to_string (status response)
                             ++ js "): " ++ errText)
              ∧ (∀ e, Groq.text response = Rejects e →
                   message r = js "接続エラー: " ++ errorMessage e))).
Proof.
  unfold testGroqConnection.
  generalize (js "Groq APIキーが未入力です")
             (js "✅ Groq API接続成功！Whisperモデルが利用可能です。")
             (js "接続エラー: ") (js "接続エラー (") (js "): ").
  intros missing connected failed failed_status colon.
  destruct groqApiKey as [|k key]; cbn [truthy negb].
  { eexists. split; [reflexivity|]. cbn [success message].
    split; [|split; [done|by intros ?]].
    split; [done|]. by intros [? _]. }
  unfold try_catch, mbind, Eff_bind, eff_bind.
  destruct (fetch _) as [response|e1] eqn:Hfetch;
    cbn [await mret Eff_ret eff_ret throw].
  2:{ eexists. split; [reflexivity|]. cbn [success message].
      split; [|split; [done|]].
      - split; [done|]. by intros (_ & ? & ? & _).
      - intros _. split; [by intros ? [= <-]|done]. }
  destruct (ok response) eqn:Hok; cbn [negb].
  - eexists. split; [reflexivity|]. cbn [success message].
    split; [|split; [done|]].
    + split; [|done]. intros _. split; [done|]. by exists response.
    + intros _. split; [done|]. intros ? [= <-]. by rewrite Hok.
  - destruct (Groq.text response) as [errText|e2] eqn:Htext;
      cbn [await mret Eff_ret eff_ret throw];
      (eexists; split; [reflexivity|]); cbn [success message];
      (split; [|split; [done|]]);
      [ split; [done|]; intros (_ & ? & [= <-] & ?); congruence
      | intros _; split; [done|]; intros ? [= <-]; rewrite Hok, Htext;
        split; [done|]; intros _; split; by intros ? [= <-]
      | split; [done|]; intros (_ & ? & [= <-] & ?); congruence
      | intros _; split; [done|]; intros ? [= <-]; rewrite Hok, Htext;
        split; [done|]; intros _; split; by intros ? [= <-] ].
Qed.

End ConnectionFacts.
